(** * kolosys/atomic, package [collection]: a sequential model

    The package wraps a Go [map[K]V] in a struct guarded by a
    [sync.RWMutex].  This development models what one call does when it
    runs alone: the mutex is left out, a map is a [gmap K V], and every
    [for ... range c.items] statement is given the order in which it
    yields the entries as an explicit argument, because Go leaves that
    order unspecified and may change it from one loop to the next.
    Go's [int] is a 64-bit two's complement integer, written as a [Z]
    with the wrap-around spelled out. *)

From Stdlib Require Import ZArith Lia.
From stdpp Require Import gmap strings list fin_maps pretty.

(** ** Go's [int] *)

Module GoInt.
Local Open Scope Z_scope.

Definition min_int : Z := - 2 ^ 63.
Definition max_int : Z := 2 ^ 63 - 1.

Definition in_range (z : Z) : Prop := min_int ≤ z ≤ max_int.

(** The value an arithmetic result has once it is stored in an [int]. *)
Definition wrap (z : Z) : Z := (z + 2 ^ 63) `mod` 2 ^ 64 - 2 ^ 63.

Definition add (a b : Z) : Z := wrap (a + b).
Definition sub (a b : Z) : Z := wrap (a - b).
Definition neg (a : Z) : Z := wrap (- a).
Definition mul (a b : Z) : Z := wrap (a * b).

(** [len(x)] of a slice or a map. *)
Definition len {A} (l : list A) : Z := Z.of_nat (length l).
End GoInt.

(** ** Results

    A call returns, panics, or is still waiting for calls it made
    ([Pending], when the model was given too few range orders). *)

Inductive Run (A : Type) : Type :=
  | Returns (a : A)
  | Panics
  | Pending.
Arguments Returns {A} a.
Arguments Panics {A}.
Arguments Pending {A}.

(** What [First], [Last] and the like return as [any]: the nil
    interface, one value, or a slice of values. *)
Inductive GoAny (V : Type) : Type :=
  | AnyNil
  | AnyOne (v : V)
  | AnySlice (vs : list V).
Arguments AnyNil {V}.
Arguments AnyOne {V} v.
Arguments AnySlice {V} vs.

(** ** The map inside a collection *)

Section Items.
Context `{Countable K} {V : Type}.

(** [zero] is the zero value of [V]: what [c.items[k]] evaluates to for
    an absent key and what [var zero V] declares. *)
Variable zero : V.

(** [es] is an order in which one [range] statement over [m] may yield
    the entries of [m]: every entry once, in any order. *)
Definition range_order (m : gmap K V) (es : list (K * V)) : Prop :=
  es ≡ₚ map_to_list m.

(** [val, ok := c.items[key]] *)
Definition index2 (m : gmap K V) (key : K) : V * bool :=
  match m !! key with
  | Some val => (val, true)
  | None => (zero, false)
  end.

(** [c.items[key]] *)
Definition index (m : gmap K V) (key : K) : V := (index2 m key).1.

Definition Set_ (key : K) (value : V) (m : gmap K V) : gmap K V :=
  <[key := value]> m.

Definition Get (key : K) (m : gmap K V) : V * bool := index2 m key.

Definition Has (key : K) (m : gmap K V) : bool := (index2 m key).2.

Definition Size (m : gmap K V) : Z := Z.of_nat (size m).

(** [keysUnlocked]: one [range] over the map, appending each key. *)
Definition keysUnlocked (es : list (K * V)) : list K :=
  foldl (λ keys e, keys ++ [e.1]) [] es.

(** [Clone]: one [range] over the map, storing each entry in a new
    map.  The new instance is allocated in [Heap] below. *)
Definition Clone (es : list (K * V)) : gmap K V :=
  foldl (λ items e, <[e.1 := e.2]> items) ∅ es.

(** *** Ensure

    The generator is handed the key and the collection itself and runs
    while no lock is held, so it may read and write the collection: it
    is a function from the map it finds to its result and the map it
    leaves.  The third component of the outcome records the generator
    calls that were made, each with the map it was given. *)
Definition Generator : Type := K → gmap K V → V * gmap K V.

Record EnsureOutcome : Type := mkEnsure {
  ensure_value : V;
  ensure_items : gmap K V;
  ensure_calls : list (K * gmap K V)
}.

Definition Ensure (key : K) (defaultValueGenerator : Generator)
    (m : gmap K V) : EnsureOutcome :=
  match index2 m key with
  | (val, true) => mkEnsure val m []
  | (_, false) =>
      let '(def, m1) := defaultValueGenerator key m in
      match index2 m1 key with
      | (val, true) => mkEnsure val m1 [(key, m)]
      | (_, false) => mkEnsure def (<[key := def]> m1) [(key, m)]
      end
  end.

(** *** Positional access *)

(** [keys[i]] for an [int] index; [None] is the run-time panic of an
    index out of range. *)
Definition slice_at {A} (s : list A) (i : Z) : option A :=
  if decide (0 ≤ i)%Z then s !! Z.to_nat i else None.

(** [for i := lo; i < hi; i++ { res = append(res, c.items[keys[i]]) }] *)
Definition append_items (m : gmap K V) (keys : list K) (lo hi : Z)
    : option (list V) :=
  foldl (λ acc i, res ← acc; k ← slice_at keys i; Some (res ++ [index m k]))
        (Some []) (seqZ lo (hi - lo)).

(** [for _, k := range keys { res = append(res, c.items[k]) }] *)
Definition append_all_items (m : gmap K V) (keys : list K) : list V :=
  foldl (λ res k, res ++ [index m k]) [] keys.

Definition of_option {A} (o : option A) : Run A :=
  match o with Some a => Returns a | None => Panics end.

(** [First] and [Last] call each other for a negative amount, and each
    call takes its own key snapshot with [keysUnlocked].  [orders]
    lists the range orders of the successive calls, outermost first;
    a call that finds none left is [Pending].  [amount] is the
    variadic argument list. *)
Fixpoint First (m : gmap K V) (orders : list (list (K * V)))
    (amount : list Z) {struct orders} : Run (GoAny V) :=
  match orders with
  | [] => Pending
  | es :: orders' =>
      let keys := keysUnlocked es in
      if decide (GoInt.len keys = 0)%Z then Returns AnyNil else
      match amount with
      | [] => of_option (k ← slice_at keys 0; Some (AnyOne (index m k)))
      | n :: _ =>
          if decide (n = 0)%Z then Returns AnyNil
          else if decide (n < 0)%Z then Last m orders' [GoInt.neg n]
          else if decide (n >= GoInt.len keys)%Z
          then Returns (AnySlice (append_all_items m keys))
          else of_option (AnySlice <$> append_items m keys 0 n)
      end
  end
with Last (m : gmap K V) (orders : list (list (K * V)))
    (amount : list Z) {struct orders} : Run (GoAny V) :=
  match orders with
  | [] => Pending
  | es :: orders' =>
      let keys := keysUnlocked es in
      if decide (GoInt.len keys = 0)%Z then Returns AnyNil else
      match amount with
      | [] => of_option (k ← slice_at keys (GoInt.sub (GoInt.len keys) 1);
                         Some (AnyOne (index m k)))
      | n :: _ =>
          if decide (n < 0)%Z then First m orders' [GoInt.neg n]
          else if decide (n = 0)%Z then Returns (AnySlice [])
          else if decide (n >= GoInt.len keys)%Z
          then Returns (AnySlice (append_all_items m keys))
          else of_option
                 (AnySlice <$> append_items m keys
                    (GoInt.sub (GoInt.len keys) n) (GoInt.len keys))
      end
  end.

(** [At] and [KeyAt]; [None] is a run-time panic. *)
Definition At (m : gmap K V) (es : list (K * V)) (index_ : Z)
    : option (V * bool) :=
  let keys := keysUnlocked es in
  let index_ := if decide (index_ < 0)%Z
                then GoInt.add index_ (GoInt.len keys) else index_ in
  if decide (index_ < 0 ∨ index_ >= GoInt.len keys)%Z
  then Some (zero, false)
  else k ← slice_at keys index_; Some (index m k, true).

Definition KeyAt (zeroK : K) (es : list (K * V)) (index_ : Z)
    : option (K * bool) :=
  let keys := keysUnlocked es in
  let index_ := if decide (index_ < 0)%Z
                then GoInt.add index_ (GoInt.len keys) else index_ in
  if decide (index_ < 0 ∨ index_ >= GoInt.len keys)%Z
  then Some (zeroK, false)
  else k ← slice_at keys index_; Some (k, true).
End Items.

(** [_, ok := m[k]] on a map of any value type. *)
Definition comma_ok `{Countable K} {A : Type} (m : gmap K A) (k : K) : bool :=
  match m !! k with Some _ => true | None => false end.

(** ** Reverse and Sort *)

Section Ordering.
Context `{Countable K} {V : Type}.
Variable zero : V.

(** [Comparator[K, V]] *)
Definition Comparator : Type := V → V → K → K → Z.

(** [for i, j := 0, len(keys)-1; i < j; i, j = i+1, j-1
       { keys[i], keys[j] = keys[j], keys[i] }]
    One unit of [fuel] pays for one turn; [None] is a panic or fuel
    that ran out. *)
Fixpoint reverse_loop (fuel : nat) (i j : Z) (keys : list K)
    : option (list K) :=
  if decide (i < j)%Z then
    match fuel with
    | O => None
    | S fuel' =>
        ki ← slice_at keys i;
        kj ← slice_at keys j;
        reverse_loop fuel' (GoInt.add i 1) (GoInt.sub j 1)
          (<[Z.to_nat j := ki]> (<[Z.to_nat i := kj]> keys))
    end
  else Some keys.

(** [for _, k := range keys { newItems[k] = c.items[k] }] *)
Definition rebuild (m : gmap K V) (keys : list K) : gmap K V :=
  foldl (λ newItems k, <[k := index zero m k]> newItems) ∅ keys.

Definition Reverse (m : gmap K V) (es : list (K * V)) : option (gmap K V) :=
  let keys := keysUnlocked es in
  keys' ← reverse_loop (length keys) 0 (GoInt.sub (GoInt.len keys) 1) keys;
  Some (rebuild m keys').

(** [sort.SliceStable] of the Go standard library, on a slice of keys
    with the [less] function given on the elements. *)
Variable SliceStable : (K → K → bool) → list K → list K.

Definition Sort (compare : Comparator) (m : gmap K V) (es : list (K * V))
    : gmap K V :=
  let keys := keysUnlocked es in
  let keys' :=
    SliceStable
      (λ ki kj, bool_decide (compare (index zero m ki) (index zero m kj) ki kj < 0)%Z)
      keys in
  rebuild m keys'.
End Ordering.

(** A stable insertion sort, to run [Sort] on examples. *)
Fixpoint insert_sorted {A} (less : A → A → bool) (x : A) (l : list A) : list A :=
  match l with
  | [] => [x]
  | y :: l' => if less x y then x :: l else y :: insert_sorted less x l'
  end.

Definition insertion_sort {A} (less : A → A → bool) (l : list A) : list A :=
  foldl (λ sorted x, insert_sorted less x sorted) [] l.

(** ** Set algebra *)

Section SetAlgebra.
Context `{Countable K} {V : Type}.

(** [Any] is the interface type [any]: [Intersection] takes a
    [*Collection[K, any]]. *)
Context {Any : Type}.

Definition Intersection (es : list (K * V)) (other : gmap K Any)
    : gmap K V :=
  foldl (λ res e, if comma_ok other e.1 then <[e.1 := e.2]> res else res)
        ∅ es.

(** [es] is the range order of [c.Clone()], [es_other] that of the loop
    over [other.items]. *)
Definition Union (es es_other : list (K * V)) : gmap K V :=
  foldl (λ res e, if comma_ok res e.1 then res else <[e.1 := e.2]> res)
        (Clone es) es_other.
End SetAlgebra.

(** ** MergeCollection *)

Record Keep (R : Type) : Type := mkKeep { keep : bool; value : R }.
Arguments mkKeep {R} keep value.
Arguments keep {R} k.
Arguments value {R} k.

Section Merge.
Context `{Countable K} {V O R : Type}.
Variables (zeroV : V) (zeroO : O).

(** A call of one of the three functions, with its arguments. *)
Inductive MergeCall : Type :=
  | CallInSelf (value : V) (key : K)
  | CallInOther (valueOther : O) (key : K)
  | CallInBoth (value : V) (valueOther : O) (key : K).

(** The local [keys := make(map[K]struct{})] after the two loops that
    fill it. *)
Definition merge_keys (es : list (K * V)) (es_other : list (K * O)) : gset K :=
  foldl (λ keys e, {[e.1]} ∪ keys)
        (foldl (λ keys e, {[e.1]} ∪ keys) ∅ es) es_other.

(** One turn of [for k := range keys]: the state is the result map
    and the calls made so far. *)
Definition MergeCollection_step (c : gmap K V) (other : gmap K O)
    (whenInSelf : V → K → Keep R) (whenInOther : O → K → Keep R)
    (whenInBoth : V → O → K → Keep R)
    (st : gmap K R * list MergeCall) (k : K)
    : gmap K R * list MergeCall :=
  let '(res, calls) := st in
  let inSelf := comma_ok c k in
  let inOther := comma_ok other k in
  if inSelf && inOther then
    let kp := whenInBoth (index zeroV c k) (index zeroO other k) k in
    (if keep kp then <[k := value kp]> res else res,
     calls ++ [CallInBoth (index zeroV c k) (index zeroO other k) k])
  else if inSelf then
    let kp := whenInSelf (index zeroV c k) k in
    (if keep kp then <[k := value kp]> res else res,
     calls ++ [CallInSelf (index zeroV c k) k])
  else if inOther then
    let kp := whenInOther (index zeroO other k) k in
    (if keep kp then <[k := value kp]> res else res,
     calls ++ [CallInOther (index zeroO other k) k])
  else (res, calls).

(** [ks] is the order in which [for k := range keys] yields the keys.
    The result is the new map and the calls made, in order. *)
Definition MergeCollection (c : gmap K V) (other : gmap K O)
    (whenInSelf : V → K → Keep R) (whenInOther : O → K → Keep R)
    (whenInBoth : V → O → K → Keep R) (ks : list K)
    : gmap K R * list MergeCall :=
  foldl (MergeCollection_step c other whenInSelf whenInOther whenInBoth)
        (∅, []) ks.

(** The call that the membership of [k] in the two maps selects. *)
Definition selected_call (c : gmap K V) (other : gmap K O) (k : K)
    : option MergeCall :=
  match c !! k, other !! k with
  | Some v, Some o => Some (CallInBoth v o k)
  | Some v, None => Some (CallInSelf v k)
  | None, Some o => Some (CallInOther o k)
  | None, None => None
  end.

Definition call_key (cl : MergeCall) : K :=
  match cl with
  | CallInSelf _ k | CallInOther _ k | CallInBoth _ _ k => k
  end.

(** The Keep-decision a call returns. *)
Definition call_result (whenInSelf : V → K → Keep R)
    (whenInOther : O → K → Keep R) (whenInBoth : V → O → K → Keep R)
    (cl : MergeCall) : Keep R :=
  match cl with
  | CallInSelf v k => whenInSelf v k
  | CallInOther o k => whenInOther o k
  | CallInBoth v o k => whenInBoth v o k
  end.

(** What one turn of the loop over [keys] does to the result map. *)
Definition commit (c : gmap K V) (other : gmap K O)
    (whenInSelf : V → K → Keep R) (whenInOther : O → K → Keep R)
    (whenInBoth : V → O → K → Keep R) (res : gmap K R) (k : K)
    : gmap K R :=
  match selected_call c other k with
  | Some cl =>
      let kp := call_result whenInSelf whenInOther whenInBoth cl in
      if keep kp then <[k := value kp]> res else res
  | None => res
  end.

(** What the result maps [k] to once [k] has had its turn, given what
    it mapped [k] to before. *)
Definition kept (c : gmap K V) (other : gmap K O)
    (whenInSelf : V → K → Keep R) (whenInOther : O → K → Keep R)
    (whenInBoth : V → O → K → Keep R) (k : K) (before : option R)
    : option R :=
  match selected_call c other k with
  | Some cl =>
      let kp := call_result whenInSelf whenInOther whenInBoth cl in
      if keep kp then Some (value kp) else before
  | None => before
  end.
End Merge.

(** ** DefaultSort *)

(** The values handed to [toString] as [any], by the kind that
    [reflect.ValueOf] finds. *)
Inductive GoValue : Type :=
  | VString (s : string)
  | VInt (n : Z)
  | VBool (b : bool).

(** [reflect.Value.String] of the Go standard library: the underlying
    string of a value of kind String, and for every other kind a string
    of the form ["<T Value>"], where [T] is the type of the value. *)
Definition reflect_Value_String (v : GoValue) : string :=
  match v with
  | VString s => s
  | VInt _ => "<int Value>"
  | VBool _ => "<bool Value>"
  end.

(** [reflect.ValueOf(v).String()] *)
Definition toString (v : GoValue) : string := reflect_Value_String v.

(** Go's [x < y] on strings: byte by byte, a proper prefix first. *)
Fixpoint string_lt (x y : string) : bool :=
  match x, y with
  | _, EmptyString => false
  | EmptyString, String _ _ => true
  | String a x', String b y' =>
      if (Ascii.N_of_ascii a <? Ascii.N_of_ascii b)%N then true
      else if (Ascii.N_of_ascii b <? Ascii.N_of_ascii a)%N then false
      else string_lt x' y'
  end.

Definition DefaultSort {K : Type} (firstValue secondValue : GoValue)
    (firstKey secondKey : K) : Z :=
  let x := toString firstValue in
  let y := toString secondValue in
  if string_lt x y then (-1)%Z
  else if string_lt y x then 1%Z
  else 0%Z.

(** The natural string representation in the words of the
    specification and of the comment on [DefaultSort] (the conversion
    to string of ECMAScript's default sort): a string is itself, an
    integer is its decimal form, a boolean is [true] or [false]. *)
Definition natural_string (v : GoValue) : string :=
  match v with
  | VString s => s
  | VInt n => pretty n
  | VBool b => if b then "true" else "false"
  end.

(** The lexicographic three-way comparison of two strings. *)
Definition lexicographic (x y : string) : Z :=
  if string_lt x y then (-1)%Z
  else if string_lt y x then 1%Z
  else 0%Z.

(** ** CombineEntries and GroupBy *)

Section Mappers.
Context `{Countable K} {V : Type}.

(** An entry is a [[2]any]; [assertK] and [assertV] are the type
    assertions [entry[0].(K)] and [entry[1].(V)], which panic ([None])
    on a value of another type. *)
Context {Any : Type}.
Variable assertK : Any → option K.
Variable assertV : Any → option V.

(** One turn of [for _, entry := range entries]: the state is the
    map and the calls of [combine] made so far, each with its three
    arguments; [None] is a panic. *)
Definition CombineEntries_step (combine : V → V → K → V)
    (st : option (gmap K V * list (V * V * K))) (entry : Any * Any)
    : option (gmap K V * list (V * V * K)) :=
  '(coll, calls) ← st;
  k ← assertK entry.1;
  v ← assertV entry.2;
  match coll !! k with
  | Some old => Some (<[k := combine old v k]> coll, calls ++ [(old, v, k)])
  | None => Some (<[k := v]> coll, calls)
  end.

Definition CombineEntries (entries : list (Any * Any))
    (combine : V → V → K → V) : option (gmap K V * list (V * V * K)) :=
  foldl (CombineEntries_step combine) (Some (∅, [])) entries.

(** [tes] lists the keys and values that the type assertions find in
    [entries]. *)
Definition asserted (entries : list (Any * Any)) (tes : list (K * V))
    : Prop :=
  Forall2 (λ entry te, assertK entry.1 = Some te.1 ∧
                       assertV entry.2 = Some te.2) entries tes.

(** The values that come with key [k], in input order. *)
Fixpoint values_of (k : K) (tes : list (K * V)) : list V :=
  match tes with
  | [] => []
  | (k', v) :: tes' =>
      if decide (k' = k) then v :: values_of k tes' else values_of k tes'
  end.

(** The left fold of [combine] from a first value over the later
    ones, and the calls of [combine] the fold makes. *)
Definition fold_combine (combine : V → V → K → V) (k : K)
    (first : V) (later : list V) : V :=
  foldl (λ acc v, combine acc v k) first later.

Fixpoint fold_combine_calls (combine : V → V → K → V) (k : K)
    (first : V) (later : list V) : list (V * V * K) :=
  match later with
  | [] => []
  | v :: later' =>
      (first, v, k) :: fold_combine_calls combine k (combine first v k) later'
  end.

(** One turn on an entry whose assertions give [te]. *)
Definition typed_step (combine : V → V → K → V)
    (st : gmap K V * list (V * V * K)) (te : K * V)
    : gmap K V * list (V * V * K) :=
  match st.1 !! te.1 with
  | Some old => (<[te.1 := combine old te.2 te.1]> st.1,
                 st.2 ++ [(old, te.2, te.1)])
  | None => (<[te.1 := te.2]> st.1, st.2)
  end.

(** The value under a key after the values [vals] have come in for
    it, given what was stored before, and the calls made for them. *)
Definition fold_from (combine : V → V → K → V) (k : K)
    (before : option V) (vals : list V) : option V :=
  match before, vals with
  | Some old, _ => Some (fold_combine combine k old vals)
  | None, [] => None
  | None, first :: later => Some (fold_combine combine k first later)
  end.

Definition fold_calls_from (combine : V → V → K → V) (k : K)
    (before : option V) (vals : list V) : list (V * V * K) :=
  match before, vals with
  | Some old, _ => fold_combine_calls combine k old vals
  | None, [] => []
  | None, first :: later => fold_combine_calls combine k first later
  end.
End Mappers.

Section GroupBy.
Context `{Countable K} {Item : Type}.

(** One turn of [for i, item := range items]: the state is the next
    index, the map and the selector calls made so far. *)
Definition GroupBy_step (keySelector : Item → Z → K)
    (st : Z * gmap K (list Item) * list (Item * Z)) (item : Item)
    : Z * gmap K (list Item) * list (Item * Z) :=
  let '(i, res, calls) := st in
  let k := keySelector item i in
  ((i + 1)%Z, <[k := index [] res k ++ [item]]> res, calls ++ [(item, i)]).

(** The result is the new map and the calls of [keySelector] made, in
    order, each with its two arguments. *)
Definition GroupBy (items : list Item) (keySelector : Item → Z → K)
    : gmap K (list Item) * list (Item * Z) :=
  let '(_, res, calls) :=
    foldl (GroupBy_step keySelector) (0%Z, ∅, []) items in
  (res, calls).

(** The selector calls for [items] when the first of them has index
    [start], and the items among them that the selector sends to
    [k]. *)
Fixpoint calls_from (start : Z) (items : list Item) : list (Item * Z) :=
  match items with
  | [] => []
  | item :: items' => (item, start) :: calls_from (start + 1)%Z items'
  end.

Fixpoint group_from (keySelector : Item → Z → K) (k : K) (start : Z)
    (items : list Item) : list Item :=
  match items with
  | [] => []
  | item :: items' =>
      if decide (keySelector item start = k)
      then item :: group_from keySelector k (start + 1)%Z items'
      else group_from keySelector k (start + 1)%Z items'
  end.

(** What the map holds under a key once the group [g] has been
    appended to what it held before. *)
Definition grouped (before : option (list Item)) (g : list Item)
    : option (list Item) :=
  match before, g with
  | None, [] => None
  | _, _ => Some (default [] before ++ g)
  end.
End GroupBy.

(** The type assertions [.(string)] and [.(int)]. *)
Definition assert_string (v : GoValue) : option string :=
  match v with VString s => Some s | _ => None end.

Definition assert_int (v : GoValue) : option Z :=
  match v with VInt n => Some n | _ => None end.

(** ** Collections as heap objects

    A [*Collection[K, V]] is a pointer; the store maps each allocated
    collection to its [items].  [None] is the panic of a nil or dangling
    pointer. *)

Module Heap.
Section Methods.
Context `{Countable K} {V : Type}.
Variable zero : V.
Variable SliceStable : (K → K → bool) → list K → list K.

(** [New]: a collection at an address not in use, with an empty map. *)
Definition New (σ : gmap positive (gmap K V))
    : positive * gmap positive (gmap K V) :=
  let p := fresh (dom σ) in (p, <[p := ∅]> σ).

Definition Clone (c : positive) (es : list (K * V))
    (σ : gmap positive (gmap K V))
    : option (positive * gmap positive (gmap K V)) :=
  _ ← σ !! c;
  let '(clone, σ1) := New σ in
  Some (clone, <[clone := Clone es]> σ1).

Definition Reverse (c : positive) (es : list (K * V))
    (σ : gmap positive (gmap K V))
    : option (positive * gmap positive (gmap K V)) :=
  m ← σ !! c;
  newItems ← Reverse zero m es;
  Some (c, <[c := newItems]> σ).

Definition Sort (c : positive) (compare : Comparator)
    (es : list (K * V)) (σ : gmap positive (gmap K V))
    : option (positive * gmap positive (gmap K V)) :=
  m ← σ !! c;
  Some (c, <[c := Sort zero SliceStable compare m es]> σ).

(** [c.Clone().Reverse()]: [es] is the range order of the clone's
    loop over [c.items], [es'] that of [Reverse] over the clone. *)
Definition ToReversed (c : positive) (es es' : list (K * V))
    (σ : gmap positive (gmap K V))
    : option (positive * gmap positive (gmap K V)) :=
  '(clone, σ1) ← Clone c es σ;
  Reverse clone es' σ1.

(** [c.Clone().Sort(compare)] *)
Definition ToSorted (c : positive) (compare : Comparator)
    (es es' : list (K * V)) (σ : gmap positive (gmap K V))
    : option (positive * gmap positive (gmap K V)) :=
  '(clone, σ1) ← Clone c es σ;
  Sort clone compare es' σ1.
End Methods.
End Heap.

(** ** The rest of the storage core *)

Section StorageCore.
Context `{Countable K} {V : Type}.
Variable zero : V.

(** [Delete]: the map without the key, and whether the key existed. *)
Definition Delete (key : K) (m : gmap K V) : gmap K V * bool :=
  let existed := comma_ok m key in
  (delete key m, existed).

(** [Clear]: [c.items = make(map[K]V)] *)
Definition Clear (m : gmap K V) : gmap K V := ∅.

Definition Keys (es : list (K * V)) : list K := keysUnlocked es.

Definition Values (es : list (K * V)) : list V :=
  foldl (λ values e, values ++ [e.2]) [] es.

(** Each entry is a [[2]any] holding the key and the value. *)
Definition Entries (es : list (K * V)) : list (K * V) :=
  foldl (λ entries e, entries ++ [(e.1, e.2)]) [] es.

(** [for _, k := range keys { if _, ok := c.items[k]; !ok { return false } }
     return true] *)
Fixpoint HasAll (m : gmap K V) (keys : list K) : bool :=
  match keys with
  | [] => true
  | k :: keys' => if negb (comma_ok m k) then false else HasAll m keys'
  end.

Fixpoint HasAny (m : gmap K V) (keys : list K) : bool :=
  match keys with
  | [] => false
  | k :: keys' => if comma_ok m k then true else HasAny m keys'
  end.
End StorageCore.

(** ** Traversal and query

    A callback is handed the value, the key and the collection; it runs
    under the read lock and can read the collection, so it is a function
    of the value, the key and the map. *)

Section Traversal.
Context `{Countable K} {V : Type}.
Variable zero : V.

(** [for k, v := range c.items { if fn(v, k, c) { return v, true } }
     return zero, false] *)
Fixpoint Find_loop (fn : V → K → gmap K V → bool) (m : gmap K V)
    (es : list (K * V)) : V * bool :=
  match es with
  | [] => (zero, false)
  | e :: es' => if fn e.2 e.1 m then (e.2, true) else Find_loop fn m es'
  end.

Definition Find (m : gmap K V) (es : list (K * V))
    (fn : V → K → gmap K V → bool) : V * bool :=
  Find_loop fn m es.

Fixpoint FindKey_loop (zeroK : K) (fn : V → K → gmap K V → bool)
    (m : gmap K V) (es : list (K * V)) : K * bool :=
  match es with
  | [] => (zeroK, false)
  | e :: es' => if fn e.2 e.1 m then (e.1, true) else FindKey_loop zeroK fn m es'
  end.

Definition FindKey (zeroK : K) (m : gmap K V) (es : list (K * V))
    (fn : V → K → gmap K V → bool) : K * bool :=
  FindKey_loop zeroK fn m es.

(** The indices of [for i := len(keys) - 1; i >= 0; i--], in the order
    the loop takes them. *)
Definition descending {A} (keys : list A) : list Z :=
  reverse (seqZ 0 (GoInt.len keys)).

(** The body of that loop in [FindLast]; [None] is a panic. *)
Fixpoint FindLast_loop (fn : V → K → gmap K V → bool) (m : gmap K V)
    (keys : list K) (indices : list Z) : option (V * bool) :=
  match indices with
  | [] => Some (zero, false)
  | i :: indices' =>
      k ← slice_at keys i;
      let v := index zero m k in
      if fn v k m then Some (v, true) else FindLast_loop fn m keys indices'
  end.

Definition FindLast (m : gmap K V) (es : list (K * V))
    (fn : V → K → gmap K V → bool) : option (V * bool) :=
  let keys := keysUnlocked es in
  FindLast_loop fn m keys (descending keys).

Fixpoint FindLastKey_loop (zeroK : K) (fn : V → K → gmap K V → bool)
    (m : gmap K V) (keys : list K) (indices : list Z) : option (K * bool) :=
  match indices with
  | [] => Some (zeroK, false)
  | i :: indices' =>
      k ← slice_at keys i;
      let v := index zero m k in
      if fn v k m then Some (k, true)
      else FindLastKey_loop zeroK fn m keys indices'
  end.

Definition FindLastKey (zeroK : K) (m : gmap K V) (es : list (K * V))
    (fn : V → K → gmap K V → bool) : option (K * bool) :=
  let keys := keysUnlocked es in
  FindLastKey_loop zeroK fn m keys (descending keys).

(** One turn of the loop of [Sweep]: the state is the map, from which
    the turns before may have deleted, and the count.  The callback is
    handed the map as it is at its turn. *)
Definition Sweep_step (fn : V → K → gmap K V → bool)
    (st : gmap K V * Z) (e : K * V) : gmap K V * Z :=
  let '(items, count) := st in
  if fn e.2 e.1 items then (delete e.1 items, GoInt.add count 1)
  else (items, count).

(** [Sweep]: the map that is left and the count returned. *)
Definition Sweep (m : gmap K V) (es : list (K * V))
    (fn : V → K → gmap K V → bool) : gmap K V * Z :=
  foldl (Sweep_step fn) (m, 0%Z) es.

Definition Filter (m : gmap K V) (es : list (K * V))
    (fn : V → K → gmap K V → bool) : gmap K V :=
  foldl (λ res e, if fn e.2 e.1 m then <[e.1 := e.2]> res else res) ∅ es.

Definition Partition_step (fn : V → K → gmap K V → bool) (m : gmap K V)
    (st : gmap K V * gmap K V) (e : K * V) : gmap K V * gmap K V :=
  let '(pass, fail) := st in
  if fn e.2 e.1 m then (<[e.1 := e.2]> pass, fail)
  else (pass, <[e.1 := e.2]> fail).

Definition Partition (m : gmap K V) (es : list (K * V))
    (fn : V → K → gmap K V → bool) : gmap K V * gmap K V :=
  foldl (Partition_step fn m) (∅, ∅) es.

(** [Some]; the name is taken by the constructor of [option]. *)
Fixpoint Some_ (fn : V → K → gmap K V → bool) (m : gmap K V)
    (es : list (K * V)) : bool :=
  match es with
  | [] => false
  | e :: es' => if fn e.2 e.1 m then true else Some_ fn m es'
  end.

Fixpoint Every (fn : V → K → gmap K V → bool) (m : gmap K V)
    (es : list (K * V)) : bool :=
  match es with
  | [] => true
  | e :: es' => if negb (fn e.2 e.1 m) then false else Every fn m es'
  end.

(** [Concat]: [es] is the range order of the clone, [others] lists the
    range orders of the loops over the other collections, in argument
    order. *)
Definition Concat (es : list (K * V)) (others : list (list (K * V)))
    : gmap K V :=
  foldl (λ result es_coll,
           foldl (λ result e, <[e.1 := e.2]> result) result es_coll)
        (Clone es) others.

(** [reflect.DeepEqual] of the Go standard library, on two values of
    type [V]. *)
Variable DeepEqual : V → V → bool.

(** The loop of [Equals], which returns false at the first entry of [c]
    that [other] lacks or holds with another value. *)
Fixpoint Equals_loop (other : gmap K V) (es : list (K * V)) : bool :=
  match es with
  | [] => true
  | e :: es' =>
      match other !! e.1 with
      | Some ov => if negb (DeepEqual e.2 ov) then false
                   else Equals_loop other es'
      | None => false
      end
  end.

(** [Equals] past its first test, that of the two pointers. *)
Definition Equals (c other : gmap K V) (es : list (K * V)) : bool :=
  if decide (Size c ≠ Size other) then false
  else Equals_loop other es.
End Traversal.

(** ** The other set operations *)

Section SetAlgebra2.
Context `{Countable K} {V Any : Type}.

Definition Difference (es : list (K * V)) (other : gmap K Any) : gmap K V :=
  foldl (λ res e, if negb (comma_ok other e.1) then <[e.1 := e.2]> res else res)
        ∅ es.

(** [es] is the range order of the loop over [c.items], [es_other] that
    of the loop over [other.items]. *)
Definition SymmetricDifference (c other : gmap K V)
    (es es_other : list (K * V)) : gmap K V :=
  foldl (λ res e, if negb (comma_ok c e.1) then <[e.1 := e.2]> res else res)
        (foldl (λ res e,
                  if negb (comma_ok other e.1) then <[e.1 := e.2]> res else res)
               ∅ es)
        es_other.
End SetAlgebra2.

(** ** Map and Reduce *)

Section MapReduce.
Context `{Countable K} {V R : Type}.
Variable zero : V.

Definition MapCollection (m : gmap K V) (es : list (K * V))
    (fn : V → K → gmap K V → R) : list R :=
  foldl (λ res e, res ++ [fn e.2 e.1 m]) [] es.

Definition MapCollectionValues (m : gmap K V) (es : list (K * V))
    (fn : V → K → gmap K V → R) : gmap K R :=
  foldl (λ res e, <[e.1 := fn e.2 e.1 m]> res) ∅ es.

Definition ReduceCollection (m : gmap K V) (es : list (K * V))
    (fn : R → V → K → gmap K V → R) (initialValue : R) : R :=
  foldl (λ acc e, fn acc e.2 e.1 m) initialValue es.

(** [None] is a panic. *)
Definition ReduceRightCollection (m : gmap K V) (es : list (K * V))
    (fn : R → V → K → gmap K V → R) (initialValue : R) : option R :=
  let keys := keysUnlocked es in
  foldl (λ acc i,
           a ← acc;
           k ← slice_at keys i;
           let v := index zero m k in
           Some (fn a v k m))
        (Some initialValue) (descending keys).
End MapReduce.

(** ** FirstKey, LastKey, Random and RandomKey *)

Section Positional2.
Context `{Countable K} {V : Type}.
Variable zero : V.

(** [s[:n]] and [s[lo:]]; [None] is the panic of slice bounds out of
    range. *)
Definition slice_to {A} (s : list A) (n : Z) : option (list A) :=
  if decide (0 ≤ n ≤ GoInt.len s)%Z then Some (take (Z.to_nat n) s) else None.

Definition slice_from {A} (s : list A) (lo : Z) : option (list A) :=
  if decide (0 ≤ lo ≤ GoInt.len s)%Z then Some (drop (Z.to_nat lo) s) else None.

(** [FirstKey] and [LastKey], with the range orders of the successive
    calls as for [First] and [Last]. *)
Fixpoint FirstKey (orders : list (list (K * V))) (amount : list Z)
    {struct orders} : Run (GoAny K) :=
  match orders with
  | [] => Pending
  | es :: orders' =>
      let keys := keysUnlocked es in
      if decide (GoInt.len keys = 0)%Z then Returns AnyNil else
      match amount with
      | [] => of_option (k ← slice_at keys 0; Some (AnyOne k))
      | n :: _ =>
          if decide (n < 0)%Z then LastKey orders' [GoInt.neg n]
          else if decide (n >= GoInt.len keys)%Z then Returns (AnySlice keys)
          else of_option (AnySlice <$> slice_to keys n)
      end
  end
with LastKey (orders : list (list (K * V))) (amount : list Z)
    {struct orders} : Run (GoAny K) :=
  match orders with
  | [] => Pending
  | es :: orders' =>
      let keys := keysUnlocked es in
      if decide (GoInt.len keys = 0)%Z then Returns AnyNil else
      match amount with
      | [] => of_option (k ← slice_at keys (GoInt.sub (GoInt.len keys) 1);
                         Some (AnyOne k))
      | n :: _ =>
          if decide (n < 0)%Z then FirstKey orders' [GoInt.neg n]
          else if decide (n = 0)%Z then Returns (AnySlice [])
          else if decide (n >= GoInt.len keys)%Z then Returns (AnySlice keys)
          else of_option
                 (AnySlice <$> slice_from keys (GoInt.sub (GoInt.len keys) n))
      end
  end.

(** [for i := 0; i < n; i++ { res = append(res, keys[perm[i]]) }] *)
Definition append_perm_keys (keys : list K) (perm : list Z) (n : Z)
    : option (list K) :=
  foldl (λ acc i, res ← acc; p ← slice_at perm i; k ← slice_at keys p;
                  Some (res ++ [k]))
        (Some []) (seqZ 0 n).

(** [for i := 0; i < n; i++ { res = append(res, c.items[keys[perm[i]]]) }] *)
Definition append_perm_items (m : gmap K V) (keys : list K) (perm : list Z)
    (n : Z) : option (list V) :=
  foldl (λ acc i, res ← acc; p ← slice_at perm i; k ← slice_at keys p;
                  Some (res ++ [index zero m k]))
        (Some []) (seqZ 0 n).

(** [RandomKey] and [Random].  [intn] is the number that
    [rand.Intn(len(keys))] draws and [perm] the slice that
    [rand.Perm(len(keys))] draws; [None] is a panic. *)
Definition RandomKey (es : list (K * V)) (intn : Z) (perm : list Z)
    (amount : list Z) : option (GoAny K) :=
  let keys := keysUnlocked es in
  if decide (GoInt.len keys = 0)%Z then Some AnyNil else
  match amount with
  | [] => k ← slice_at keys intn; Some (AnyOne k)
  | n :: _ =>
      if decide (n ≤ 0)%Z then Some (AnySlice []) else
      let n := if decide (n > GoInt.len keys)%Z then GoInt.len keys else n in
      AnySlice <$> append_perm_keys keys perm n
  end.

Definition Random (m : gmap K V) (es : list (K * V)) (intn : Z)
    (perm : list Z) (amount : list Z) : option (GoAny V) :=
  let keys := keysUnlocked es in
  if decide (GoInt.len keys = 0)%Z then Some AnyNil else
  match amount with
  | [] => k ← slice_at keys intn; Some (AnyOne (index zero m k))
  | n :: _ =>
      if decide (n ≤ 0)%Z then Some (AnySlice []) else
      let n := if decide (n > GoInt.len keys)%Z then GoInt.len keys else n in
      AnySlice <$> append_perm_items m keys perm n
  end.

(** [perm] is a slice that [rand.Perm(n)] may return: the integers of
    [[0, n)] in some order. *)
Definition is_Perm (n : Z) (perm : list Z) : Prop := perm ≡ₚ seqZ 0 n.

(** [FlatMap]: [sub_order k] is the order in which the loop over the
    items of the collection returned by [fn(v, k, c)] yields them. *)
Definition FlatMap (es : list (K * V)) (sub_order : K → list (K * V))
    : gmap K V :=
  foldl (λ result e,
           foldl (λ result sub_e, <[sub_e.1 := sub_e.2]> result)
                 result (sub_order e.1))
        ∅ es.
End Positional2.

(** ** More methods on collections as heap objects *)

Module HeapStore.
Section Methods.
Context `{Countable K} {V : Type}.
Variable DeepEqual : V → V → bool.

(** [Set]: stores into the map of [c] and returns [c]. *)
Definition Set_ (c : positive) (key : K) (value : V)
    (σ : gmap positive (gmap K V))
    : option (positive * gmap positive (gmap K V)) :=
  m ← σ !! c;
  Some (c, <[c := <[key := value]> m]> σ).

Definition Delete (c : positive) (key : K) (σ : gmap positive (gmap K V))
    : option (bool * gmap positive (gmap K V)) :=
  m ← σ !! c;
  Some (comma_ok m key, <[c := delete key m]> σ).

Definition Clear (c : positive) (σ : gmap positive (gmap K V))
    : option (positive * gmap positive (gmap K V)) :=
  _ ← σ !! c;
  Some (c, <[c := ∅]> σ).

Definition Get (zero : V) (c : positive) (key : K)
    (σ : gmap positive (gmap K V)) : option (V * bool) :=
  m ← σ !! c;
  Some (index2 zero m key).

(** [Equals]: true at once for one and the same collection. *)
Definition Equals (c other : positive) (es : list (K * V))
    (σ : gmap positive (gmap K V)) : option bool :=
  if decide (c = other) then Some true else
  m ← σ !! c;
  m' ← σ !! other;
  Some (Equals DeepEqual m m' es).
End Methods.
End HeapStore.

(** ** Sample collections *)

(** The collection the package's tests build: three string keys. *)
Definition sample3 : gmap string Z :=
  <["key3" := 30%Z]> (<["key2" := 20%Z]> (<["key1" := 10%Z]> ∅)).

Definition sample1 : gmap string Z := <["key1" := 10%Z]> ∅.

(** * Properties *)

(** ** Go's [int] *)

Lemma wrap_in_range (z : Z) : GoInt.in_range z → GoInt.wrap z = z.
Proof.
  unfold GoInt.in_range, GoInt.wrap, GoInt.min_int, GoInt.max_int.
  intros Hz. rewrite Z.mod_small; lia.
Qed.

Lemma neg_min_int : GoInt.neg GoInt.min_int = GoInt.min_int.
Proof. reflexivity. Qed.

(** ** Range orders *)

Section RangeFacts.
Context `{Countable K} {V : Type}.
Variable zero : V.
Implicit Types (m : gmap K V) (es : list (K * V)).

Lemma keysUnlocked_app es (acc : list K) :
  foldl (λ keys e, keys ++ [e.1]) acc es = acc ++ es.*1.
Proof.
  revert acc. induction es as [|e es IH]; intros acc; simpl.
  - by rewrite app_nil_r.
  - rewrite IH. by rewrite <- app_assoc.
Qed.

Lemma keysUnlocked_fst es : keysUnlocked es = es.*1.
Proof. unfold keysUnlocked. by rewrite keysUnlocked_app. Qed.

Lemma range_order_NoDup m es : range_order m es → NoDup es.*1.
Proof.
  unfold range_order. intros ->. apply NoDup_fst_map_to_list.
Qed.

Lemma range_order_elem m es k v :
  range_order m es → (k, v) ∈ es ↔ m !! k = Some v.
Proof.
  unfold range_order. intros ->. apply elem_of_map_to_list.
Qed.

Lemma range_order_length m es : range_order m es → length es = size m.
Proof.
  unfold range_order. intros ->. by rewrite length_map_to_list.
Qed.

Lemma range_order_to_map m es : range_order m es → list_to_map es = m.
Proof.
  intros Hes. rewrite <- (list_to_map_to_list m).
  apply list_to_map_proper; [by eapply range_order_NoDup | exact Hes].
Qed.

Lemma range_order_keys m es k :
  range_order m es → k ∈ es.*1 ↔ is_Some (m !! k).
Proof.
  intros Hes. rewrite list_elem_of_fmap. split.
  - intros [[k' v] [-> Hin]]. exists v. by apply (range_order_elem m es).
  - intros [v Hv]. exists (k, v). split; [done|].
    by apply (range_order_elem m es).
Qed.

Lemma index2_Some m k v : m !! k = Some v → index2 zero m k = (v, true).
Proof. unfold index2. by intros ->. Qed.

Lemma index2_None m k : m !! k = None → index2 zero m k = (zero, false).
Proof. unfold index2. by intros ->. Qed.

Lemma index_Some m k v : m !! k = Some v → index zero m k = v.
Proof. unfold index. intros Hk. by rewrite (index2_Some m k v). Qed.

(** Looking the keys of a range order up gives its values. *)
Lemma range_order_index m es :
  range_order m es → index zero m <$> es.*1 = es.*2.
Proof.
  intros Hes. rewrite <- list_fmap_compose. apply list_fmap_ext.
  intros i [k v] Hi. simpl. apply index_Some.
  apply (range_order_elem m es); [done|]. by eapply list_elem_of_lookup_2.
Qed.

Lemma Clone_fold es (acc : gmap K V) :
  NoDup es.*1 →
  foldl (λ items e, <[e.1 := e.2]> items) acc es = list_to_map es ∪ acc.
Proof.
  revert acc. induction es as [|[k v] es IH]; intros acc Hnd; simpl.
  - by rewrite (left_id_L ∅ (∪)).
  - apply NoDup_cons in Hnd as [Hk Hnd]. rewrite IH by done.
    apply map_eq. intros i. rewrite !lookup_union.
    destruct (decide (k = i)) as [->|Hne].
    + rewrite !lookup_insert_eq.
      rewrite (not_elem_of_list_to_map_1 es i Hk).
      by destruct (acc !! i).
    + by rewrite !lookup_insert_ne.
Qed.

(** A clone has the entries of the map it was ranged over, whatever
    the order. *)
Lemma Clone_range m es : range_order m es → Clone es = m.
Proof.
  intros Hes. unfold Clone.
  rewrite Clone_fold by (by eapply range_order_NoDup).
  rewrite (right_id_L ∅ (∪)). by apply range_order_to_map.
Qed.
End RangeFacts.

(** ** Ensure *)

Section EnsureFacts.
Context `{Countable K} {V : Type}.
Variable zero : V.

(** C1, amended.  When the key is present [Ensure] returns its value,
    calls the generator not at all and leaves the map as it is.  When
    the key is absent it calls the generator once, on the key and the
    collection; if the key is still absent after the generator has
    run, the generator's result is stored under the key and returned,
    and if the generator itself stored the key, that value is kept and
    returned.  Either way the value returned is the value stored
    under the key when the call completes. *)
Theorem Ensure_contract (m : gmap K V) (key : K) (gen : Generator) :
  let out := Ensure zero key gen m in
  match m !! key with
  | Some v => out = mkEnsure v m []
  | None =>
      ensure_calls out = [(key, m)] ∧
      ensure_items out !! key = Some (ensure_value out) ∧
      match (gen key m).2 !! key with
      | Some w =>
          ensure_value out = w ∧ ensure_items out = (gen key m).2
      | None =>
          ensure_value out = (gen key m).1 ∧
          ensure_items out = <[key := (gen key m).1]> (gen key m).2
      end
  end.
Proof.
  unfold Ensure. destruct (m !! key) as [v|] eqn:Hm.
  - by rewrite (index2_Some zero m key v).
  - rewrite (index2_None zero m key Hm).
    destruct (gen key m) as [def m1]. simpl.
    destruct (m1 !! key) as [w|] eqn:Hm1.
    + rewrite (index2_Some zero m1 key w Hm1). simpl. done.
    + rewrite (index2_None zero m1 key Hm1). simpl.
      by rewrite lookup_insert_eq.
Qed.
End EnsureFacts.

(** C1 as stated fails: a generator that stores the key itself has its
    own result discarded.  On the empty collection, the generator below
    stores 7 under the key and returns 9; [Ensure] returns 7, and 7 is
    what the key maps to afterwards, not 9. *)
Lemma Ensure_generator_result_not_stored :
  let gen : Generator := λ k m, (9%Z, <[k := 7%Z]> m) in
  let out := Ensure 0%Z "a" gen (∅ : gmap string Z) in
  (∅ : gmap string Z) !! "a" = None ∧
  (gen "a" ∅).1 = 9%Z ∧
  ensure_value out = 7%Z ∧
  ensure_items out !! "a" = Some 7%Z ∧
  ensure_items out !! "a" ≠ Some (gen "a" ∅).1.
Proof. vm_compute. repeat split; congruence. Qed.

(** ** DefaultSort *)

Lemma string_lt_irrefl (x : string) : string_lt x x = false.
Proof.
  induction x as [|a x IH]; simpl; [done|].
  by rewrite N.ltb_irrefl.
Qed.

(** On strings the comparator is the lexicographic comparison. *)
Lemma DefaultSort_strings {K} (x y : string) (k1 k2 : K) :
  DefaultSort (VString x) (VString y) k1 k2 = lexicographic x y.
Proof. reflexivity. Qed.

Lemma DefaultSort_three_way {K} (v1 v2 : GoValue) (k1 k2 : K) :
  DefaultSort v1 v2 k1 k2 ∈ [(-1)%Z; 0%Z; 1%Z].
Proof.
  unfold DefaultSort.
  repeat destruct (string_lt _ _); set_solver.
Qed.

(** Any two integers compare equal: both are turned into the same
    string. *)
Lemma DefaultSort_ints_equal {K} (a b : Z) (k1 k2 : K) :
  DefaultSort (VInt a) (VInt b) k1 k2 = 0%Z.
Proof. reflexivity. Qed.

(** C2 fails on the code: for the integers 1 and 2 [DefaultSort]
    returns 0, although their natural string representations, the
    decimal forms, compare as -1. *)
Theorem DefaultSort_int_1_2 :
  DefaultSort (VInt 1) (VInt 2) "a" "b" = 0%Z ∧
  natural_string (VInt 1) = "1" ∧
  natural_string (VInt 2) = "2" ∧
  lexicographic (natural_string (VInt 1)) (natural_string (VInt 2)) = (-1)%Z.
Proof. vm_compute. done. Qed.

(** ** Positional access *)

Section PositionalFacts.
Context `{Countable K} {V : Type}.
Variable zero : V.
Implicit Types (m : gmap K V) (es : list (K * V)) (keys : list K).

Lemma slice_at_lookup {A} (s : list A) (i : nat) :
  slice_at s (Z.of_nat i) = s !! i.
Proof.
  unfold slice_at. rewrite decide_True by lia. by rewrite Nat2Z.id.
Qed.

Lemma append_all_items_fmap m keys :
  append_all_items zero m keys = index zero m <$> keys.
Proof.
  unfold append_all_items.
  enough (∀ acc, foldl (λ res k, res ++ [index zero m k]) acc keys
                 = acc ++ (index zero m <$> keys)) as Hgen by apply Hgen.
  induction keys as [|k keys IH]; intros acc; simpl.
  - by rewrite app_nil_r.
  - rewrite IH. by rewrite <- app_assoc.
Qed.

Lemma append_items_fold m keys (n lo : nat) (acc : list V) :
  lo + n ≤ length keys →
  foldl (λ acc i, res ← acc; k ← slice_at keys i;
                  Some (res ++ [index zero m k]))
        (Some acc) (seqZ (Z.of_nat lo) (Z.of_nat n))
  = Some (acc ++ (index zero m <$> take n (drop lo keys))).
Proof.
  revert lo acc. induction n as [|n IH]; intros lo acc Hlen.
  - simpl. by rewrite app_nil_r.
  - rewrite seqZ_cons by lia.
    replace (Z.succ (Z.of_nat lo)) with (Z.of_nat (S lo)) by lia.
    replace (Z.pred (Z.of_nat (S n))) with (Z.of_nat n) by lia.
    destruct (lookup_lt_is_Some_2 keys lo) as [k Hk]; [lia|].
    simpl. rewrite slice_at_lookup, Hk. simpl.
    rewrite IH by lia. rewrite (drop_S keys k lo Hk). simpl.
    by rewrite <- app_assoc.
Qed.

Lemma append_items_range m keys (lo hi : Z) :
  (0 ≤ lo ≤ hi)%Z → (hi ≤ GoInt.len keys)%Z →
  append_items zero m keys lo hi
  = Some (index zero m <$> take (Z.to_nat (hi - lo)) (drop (Z.to_nat lo) keys)).
Proof.
  unfold GoInt.len. intros Hlo Hhi. unfold append_items.
  rewrite <- (Z2Nat.id lo) at 1 by lia.
  rewrite <- (Z2Nat.id (hi - lo)) at 1 by lia.
  by rewrite append_items_fold by lia.
Qed.

Lemma len_keysUnlocked m es :
  range_order m es → GoInt.len (keysUnlocked es) = Size m.
Proof.
  intros Hes. unfold GoInt.len, Size.
  rewrite keysUnlocked_fst, length_fmap.
  by rewrite (range_order_length m es).
Qed.

Lemma append_items_first m es (n : Z) :
  range_order m es → (0 ≤ n ≤ Z.of_nat (length es))%Z →
  append_items zero m es.*1 0 n = Some (take (Z.to_nat n) es.*2).
Proof.
  intros Hes Hn. rewrite append_items_range.
  - f_equal. change (Z.to_nat 0) with 0. rewrite drop_0, Z.sub_0_r.
    by rewrite fmap_take, (range_order_index zero m es Hes).
  - lia.
  - unfold GoInt.len. rewrite length_fmap. lia.
Qed.

Lemma append_items_last m es (n : Z) :
  range_order m es → (0 ≤ n ≤ Z.of_nat (length es))%Z →
  append_items zero m es.*1 (Z.of_nat (length es) - n) (Z.of_nat (length es))
  = Some (drop (length es - Z.to_nat n) es.*2).
Proof.
  intros Hes Hn. rewrite append_items_range.
  - f_equal.
    replace (Z.to_nat (Z.of_nat (length es) - n))
      with (length es - Z.to_nat n) by lia.
    rewrite take_ge by (rewrite length_drop, length_fmap; lia).
    by rewrite fmap_drop, (range_order_index zero m es Hes).
  - lia.
  - unfold GoInt.len. rewrite length_fmap. lia.
Qed.

(** An empty collection: nil, for every argument list. *)
Lemma First_Last_empty m es rest (amount : list Z) :
  range_order m es → Size m = 0%Z →
  First zero m (es :: rest) amount = Returns AnyNil ∧
  Last zero m (es :: rest) amount = Returns AnyNil.
Proof.
  intros Hes Hsz. simpl.
  rewrite (len_keysUnlocked m es Hes), !decide_True by done. done.
Qed.

Lemma First_zero m es rest :
  range_order m es → Size m ≠ 0%Z →
  First zero m (es :: rest) [0%Z] = Returns AnyNil.
Proof.
  intros Hes Hsz. simpl.
  rewrite (len_keysUnlocked m es Hes), decide_False by done. done.
Qed.

Lemma Last_zero m es rest :
  range_order m es → Size m ≠ 0%Z →
  Last zero m (es :: rest) [0%Z] = Returns (AnySlice []).
Proof.
  intros Hes Hsz. simpl.
  rewrite (len_keysUnlocked m es Hes), decide_False by done. done.
Qed.

Lemma First_positive m es rest (n : Z) :
  range_order m es → Size m ≠ 0%Z → (0 < n)%Z →
  First zero m (es :: rest) [n]
  = Returns (AnySlice (take (Z.to_nat n) es.*2)).
Proof.
  intros Hes Hsz Hn. simpl.
  rewrite (len_keysUnlocked m es Hes).
  rewrite decide_False by done. rewrite decide_False by lia.
  rewrite decide_False by lia.
  assert (Size m = Z.of_nat (length es)) as Hlen.
  { unfold Size. by rewrite (range_order_length m es). }
  destruct (decide (n >= Size m)%Z) as [Hge|Hlt].
  - rewrite append_all_items_fmap, keysUnlocked_fst.
    rewrite (range_order_index zero m es Hes).
    rewrite take_ge; [done|]. rewrite length_fmap. lia.
  - rewrite keysUnlocked_fst, (append_items_first m es) by (done || lia).
    done.
Qed.

Lemma Last_positive m es rest (n : Z) :
  range_order m es → Size m ≠ 0%Z → (0 < n)%Z →
  GoInt.in_range (Size m) →
  Last zero m (es :: rest) [n]
  = Returns (AnySlice (drop (length es - Z.to_nat n) es.*2)).
Proof.
  intros Hes Hsz Hn Hrange. simpl.
  rewrite (len_keysUnlocked m es Hes).
  rewrite decide_False by done. rewrite decide_False by lia.
  rewrite decide_False by lia.
  assert (Size m = Z.of_nat (length es)) as Hlen.
  { unfold Size. by rewrite (range_order_length m es). }
  destruct (decide (n >= Size m)%Z) as [Hge|Hlt].
  - rewrite append_all_items_fmap, keysUnlocked_fst.
    rewrite (range_order_index zero m es Hes).
    replace (length es - Z.to_nat n) with 0 by lia. done.
  - unfold GoInt.sub. rewrite wrap_in_range.
    2:{ unfold GoInt.in_range, GoInt.min_int, GoInt.max_int in *. lia. }
    rewrite keysUnlocked_fst, Hlen.
    rewrite (append_items_last m es) by (done || lia).
    done.
Qed.

Lemma First_negative m es rest (n : Z) :
  range_order m es → Size m ≠ 0%Z → (n < 0)%Z →
  First zero m (es :: rest) [n] = Last zero m rest [GoInt.neg n].
Proof.
  intros Hes Hsz Hn. simpl.
  rewrite (len_keysUnlocked m es Hes).
  rewrite decide_False by done. rewrite decide_False by lia.
  by rewrite decide_True by lia.
Qed.

Lemma Last_negative m es rest (n : Z) :
  range_order m es → Size m ≠ 0%Z → (n < 0)%Z →
  Last zero m (es :: rest) [n] = First zero m rest [GoInt.neg n].
Proof.
  intros Hes Hsz Hn. simpl.
  rewrite (len_keysUnlocked m es Hes).
  rewrite decide_False by done.
  by rewrite decide_True by lia.
Qed.

Lemma neg_in_range (n : Z) :
  GoInt.in_range n → n ≠ GoInt.min_int → GoInt.neg n = (- n)%Z.
Proof.
  intros Hn Hmin. unfold GoInt.neg. apply wrap_in_range.
  unfold GoInt.in_range, GoInt.min_int, GoInt.max_int in *. lia.
Qed.

(** The smallest [int] is its own negation, so on a collection that
    is not empty [First] and [Last] keep calling each other: no number
    of calls completes. *)
Lemma First_Last_min_int m (orders : list (list (K * V))) :
  Forall (range_order m) orders → Size m ≠ 0%Z →
  First zero m orders [GoInt.min_int] = Pending ∧
  Last zero m orders [GoInt.min_int] = Pending.
Proof.
  intros Horders Hsz.
  induction Horders as [|es orders Hes _ [IHF IHL]]; [done|].
  split.
  - rewrite First_negative by done. by rewrite neg_min_int.
  - rewrite Last_negative by done. by rewrite neg_min_int.
Qed.

(** C3, amended.  On an empty collection [First(n)] and [Last(n)]
    return nil for every [n].  On a collection that is not empty:
    [First(0)] returns nil and [Last(0)] an empty slice; for a
    negative [n] other than the smallest [int], [First(n)] returns
    what [Last(-n)] returns and [Last(n)] what [First(-n)] returns,
    the inner call over the key snapshot it takes itself; for [n] at
    or above the size both return all values in snapshot order; and
    for [0 < n < size] they return the first and the last [n] values
    of the snapshot. *)
Theorem First_Last_by_amount m es es' rest (n : Z) :
  range_order m es → range_order m es' →
  GoInt.in_range n → n ≠ GoInt.min_int → GoInt.in_range (Size m) →
  let first := First zero m (es :: es' :: rest) [n] in
  let last := Last zero m (es :: es' :: rest) [n] in
  if decide (Size m = 0)%Z then
    first = Returns AnyNil ∧ last = Returns AnyNil
  else if decide (n = 0)%Z then
    first = Returns AnyNil ∧ last = Returns (AnySlice [])
  else if decide (n < 0)%Z then
    first = Last zero m (es' :: rest) [(- n)%Z] ∧
    first = Returns (AnySlice (drop (length es' - Z.to_nat (- n)) es'.*2)) ∧
    last = First zero m (es' :: rest) [(- n)%Z] ∧
    last = Returns (AnySlice (take (Z.to_nat (- n)) es'.*2))
  else if decide (n >= Size m)%Z then
    first = Returns (AnySlice es.*2) ∧ last = Returns (AnySlice es.*2)
  else
    first = Returns (AnySlice (take (Z.to_nat n) es.*2)) ∧
    last = Returns (AnySlice (drop (length es - Z.to_nat n) es.*2)).
Proof.
  intros Hes Hes' Hn Hmin Hsize first last. subst first last.
  assert (length es = size m) as Hlen by by apply range_order_length.
  destruct (decide (Size m = 0)%Z) as [Hz|Hnz].
  { by apply First_Last_empty. }
  destruct (decide (n = 0)%Z) as [->|Hn0].
  { split; [by apply First_zero | by apply Last_zero]. }
  destruct (decide (n < 0)%Z) as [Hneg|Hpos].
  { rewrite (First_negative m es (es' :: rest) n) by done.
    rewrite (Last_negative m es (es' :: rest) n) by done.
    rewrite neg_in_range by done.
    rewrite (First_positive m es' rest) by (done || lia).
    rewrite (Last_positive m es' rest) by (done || lia). done. }
  rewrite (First_positive m es) by (done || lia).
  rewrite (Last_positive m es) by (done || lia).
  destruct (decide (n >= Size m)%Z) as [Hge|Hlt]; [|done].
  unfold Size in Hge.
  rewrite take_ge by (rewrite length_fmap; lia).
  replace (length es - Z.to_nat n) with 0 by lia. done.
Qed.

(** *** At and KeyAt *)

Lemma add_len_in_range (i : Z) m :
  GoInt.in_range i → GoInt.in_range (Size m) → (i < 0)%Z →
  GoInt.add i (Size m) = (i + Size m)%Z.
Proof.
  intros Hi Hsz Hneg. unfold GoInt.add. apply wrap_in_range.
  unfold GoInt.in_range, GoInt.min_int, GoInt.max_int, Size in *. lia.
Qed.

(** C10.  [At(i)] and [KeyAt(i)] report found in the same cases, which
    are those where [i], after [Size()] is added to a negative [i],
    lies in [[0, Size())]; and over one key snapshot, when both
    succeed, the value of [At(i)] is the value the collection maps the
    key of [KeyAt(i)] to. *)
Theorem At_KeyAt_agree m es es' (zeroK : K) (i : Z) :
  range_order m es → range_order m es' →
  GoInt.in_range i → GoInt.in_range (Size m) →
  let j := if decide (i < 0)%Z then (i + Size m)%Z else i in
  (∃ v k found,
      At zero m es i = Some (v, found) ∧
      KeyAt zeroK es' i = Some (k, found) ∧
      (found = true ↔ (0 ≤ j < Size m)%Z)) ∧
  (∀ v k,
      At zero m es i = Some (v, true) →
      KeyAt zeroK es i = Some (k, true) →
      m !! k = Some v).
Proof.
  intros Hes Hes' Hi Hsz j.
  assert ((if decide (i < 0)%Z then GoInt.add i (Size m) else i) = j) as Hj.
  { subst j. destruct (decide (i < 0)%Z); [|done].
    by apply add_len_in_range. }
  unfold At, KeyAt.
  rewrite (len_keysUnlocked m es Hes), (len_keysUnlocked m es' Hes'), Hj.
  rewrite !keysUnlocked_fst.
  destruct (decide (j < 0 ∨ j >= Size m)%Z) as [Hout|Hin].
  - split; [|by intros v k [=]].
    exists zero, zeroK, false. split_and!; [done|done|].
    split; [done|lia].
  - assert (0 ≤ j < Size m)%Z as Hjr by lia.
    assert (Z.of_nat (length es) = Size m) as Hlen.
    { unfold Size. by rewrite (range_order_length m es). }
    assert (Z.of_nat (length es') = Size m) as Hlen'.
    { unfold Size. by rewrite (range_order_length m es'). }
    rewrite <- (Z2Nat.id j) by lia. rewrite !slice_at_lookup.
    destruct (lookup_lt_is_Some_2 es.*1 (Z.to_nat j)) as [k Hk].
    { rewrite length_fmap. lia. }
    destruct (lookup_lt_is_Some_2 es'.*1 (Z.to_nat j)) as [k' Hk'].
    { rewrite length_fmap. lia. }
    rewrite Hk, Hk'. simpl. split.
    + exists (index zero m k), k', true. split_and!; [done|done|].
      split; [lia|done].
    + intros v k0 [= <-] [= <-].
      assert (is_Some (m !! k)) as [w Hw].
      { apply (range_order_keys m es); [done|].
        by eapply list_elem_of_lookup_2. }
      by rewrite (index_Some zero m k w Hw).
Qed.
End PositionalFacts.

(** ** Set algebra *)

Section SetAlgebraFacts.
Context `{Countable K} {V Any : Type}.
Implicit Types (A B : gmap K V) (es : list (K * V)).

Lemma comma_ok_true {X} (m : gmap K X) k :
  comma_ok m k = true ↔ is_Some (m !! k).
Proof.
  unfold comma_ok. destruct (m !! k).
  - split; [by eexists | done].
  - split; [done | by intros [? ?]].
Qed.

Lemma Union_fold es (acc : gmap K V) :
  foldl (λ res e, if comma_ok res e.1 then res else <[e.1 := e.2]> res)
        acc es
  = acc ∪ list_to_map es.
Proof.
  revert acc. induction es as [|[k v] es IH]; intros acc; simpl.
  - by rewrite (right_id_L ∅ (∪)).
  - rewrite IH. apply map_eq. intros i. unfold comma_ok.
    destruct (acc !! k) as [a|] eqn:Hk; rewrite !lookup_union.
    + destruct (decide (k = i)) as [->|Hne].
      * rewrite Hk, lookup_insert_eq.
        by destruct (list_to_map es !! i).
      * by rewrite lookup_insert_ne.
    + destruct (decide (k = i)) as [->|Hne].
      * rewrite !lookup_insert_eq, Hk.
        by destruct (list_to_map es !! i).
      * by rewrite !lookup_insert_ne.
Qed.

(** [Union] is the left-biased union of the two maps, whatever the
    range orders. *)
Lemma Union_union A B es es_other :
  range_order A es → range_order B es_other →
  Union es es_other = A ∪ B.
Proof.
  intros HA HB. unfold Union. rewrite Union_fold.
  by rewrite (Clone_range A es HA), (range_order_to_map B es_other HB).
Qed.

(** C6.  [Union(A, B)] has exactly the keys present in [A] or in [B],
    and a key present in both is mapped to the value it has in [A]. *)
Theorem Union_keys_values A B es es_other (k : K) :
  range_order A es → range_order B es_other →
  (is_Some (Union es es_other !! k)
     ↔ is_Some (A !! k) ∨ is_Some (B !! k)) ∧
  (∀ a b, A !! k = Some a → B !! k = Some b →
          Union es es_other !! k = Some a) ∧
  (A !! k = None → Union es es_other !! k = B !! k).
Proof.
  intros HA HB. rewrite (Union_union A B es es_other HA HB).
  split_and!.
  - apply lookup_union_is_Some.
  - intros a b Ha Hb. by apply lookup_union_Some_l.
  - intros Ha. by apply lookup_union_r.
Qed.

Lemma Intersection_fold es (other : gmap K Any) (acc : gmap K V) :
  NoDup es.*1 →
  foldl (λ res e, if comma_ok other e.1 then <[e.1 := e.2]> res else res)
        acc es
  = filter (λ e, is_Some (other !! e.1)) (list_to_map es : gmap K V) ∪ acc.
Proof.
  revert acc. induction es as [|[k v] es IH]; intros acc Hnd; simpl.
  - by rewrite map_filter_empty, (left_id_L ∅ (∪)).
  - apply NoDup_cons in Hnd as [Hk Hnd]. rewrite IH by done.
    pose proof (not_elem_of_list_to_map_1 es k Hk) as Hnone.
    unfold comma_ok. destruct (other !! k) as [o|] eqn:Ho.
    + rewrite map_filter_insert_True by (simpl; by rewrite Ho).
      apply map_eq. intros i. rewrite !lookup_union.
      destruct (decide (k = i)) as [->|Hne].
      * rewrite !lookup_insert_eq.
        assert (filter (λ e : K * V, is_Some (other !! e.1))
                       (list_to_map es : gmap K V) !! i = None) as ->
          by (apply map_lookup_filter_None; by left).
        by destruct (acc !! i).
      * by rewrite !lookup_insert_ne.
    + rewrite map_filter_insert_False
        by (simpl; rewrite Ho; by intros [? ?]).
      by rewrite (delete_id _ _ Hnone).
Qed.

Lemma Intersection_lookup A (other : gmap K Any) es (k : K) :
  range_order A es →
  Intersection es other !! k
  = if comma_ok other k then A !! k else None.
Proof.
  intros HA. unfold Intersection.
  rewrite Intersection_fold by (by eapply range_order_NoDup).
  rewrite (right_id_L ∅ (∪)), (range_order_to_map A es HA).
  unfold comma_ok. destruct (other !! k) as [o|] eqn:Ho.
  - destruct (A !! k) as [a|] eqn:Ha.
    + apply map_lookup_filter_Some. split; [done|]. simpl. by rewrite Ho.
    + apply map_lookup_filter_None. by left.
  - apply map_lookup_filter_None. right. intros a _. simpl.
    rewrite Ho. by intros [? ?].
Qed.

Lemma Intersection_dom A (other : gmap K Any) es :
  range_order A es →
  dom (Intersection es other) = dom A ∩ dom other.
Proof.
  intros HA. apply set_eq. intros k.
  rewrite elem_of_intersection, !elem_of_dom.
  rewrite (Intersection_lookup A other es k HA).
  destruct (comma_ok other k) eqn:Hok.
  - apply comma_ok_true in Hok. tauto.
  - split; [by intros [? ?]|]. intros [_ Ho].
    apply comma_ok_true in Ho. congruence.
Qed.

Lemma size_union_intersection (X Y : gset K) :
  size (X ∪ Y) + size (X ∩ Y) = size X + size Y.
Proof.
  rewrite size_union_alt.
  assert (Y ∖ X = Y ∖ (X ∩ Y)) as -> by set_solver.
  rewrite size_difference by set_solver.
  assert (size (X ∩ Y) ≤ size Y) by (apply subseteq_size; set_solver).
  lia.
Qed.
End SetAlgebraFacts.

Section InclusionExclusion.
Context `{Countable K} {Any : Type}.

(** C7.  [Union(A, B).Size() + Intersection(A, B).Size()
    == A.Size() + B.Size()].  Both calls take [B] only when the value
    type is [any], the value type [Intersection] asks of its
    argument. *)
Theorem Union_Intersection_Size (A B : gmap K Any)
    (es es_other es' : list (K * Any)) :
  range_order A es → range_order B es_other → range_order A es' →
  (Size (Union es es_other) + Size (Intersection es' B))%Z
  = (Size A + Size B)%Z.
Proof.
  intros HA HB HA'. unfold Size.
  rewrite (Union_union A B es es_other HA HB).
  rewrite <- !size_dom.
  rewrite (Intersection_dom A B es' HA'), dom_union_L.
  pose proof (size_union_intersection (dom A) (dom B)). lia.
Qed.
End InclusionExclusion.

(** ** MergeCollection *)

Section MergeFacts.
Context `{Countable K} {V O R : Type}.
Variables (zeroV : V) (zeroO : O).
Variable whenInSelf : V → K → Keep R.
Variable whenInOther : O → K → Keep R.
Variable whenInBoth : V → O → K → Keep R.
Variables (c : gmap K V) (other : gmap K O).

Lemma key_set_fold {X} (es : list (K * X)) (acc : gset K) :
  foldl (λ keys e, {[e.1]} ∪ keys) acc es = list_to_set es.*1 ∪ acc.
Proof.
  revert acc. induction es as [|e es IH]; intros acc; simpl.
  - set_solver.
  - rewrite IH. set_solver.
Qed.

Lemma merge_keys_dom (es : list (K * V)) (es_other : list (K * O)) :
  range_order c es → range_order other es_other →
  merge_keys es es_other = dom c ∪ dom other.
Proof.
  intros Hc Ho. unfold merge_keys. rewrite !key_set_fold.
  apply set_eq. intros k.
  rewrite !elem_of_union, !elem_of_list_to_set, !elem_of_dom.
  rewrite (range_order_keys c es k Hc).
  rewrite (range_order_keys other es_other k Ho).
  set_solver.
Qed.

Lemma selected_call_is_Some (k : K) :
  is_Some (selected_call c other k)
  ↔ is_Some (c !! k) ∨ is_Some (other !! k).
Proof.
  unfold selected_call.
  destruct (c !! k), (other !! k); rewrite !is_Some_alt; tauto.
Qed.

Lemma selected_call_key (k : K) (cl : MergeCall) :
  selected_call c other k = Some cl → call_key cl = k.
Proof.
  unfold selected_call.
  destruct (c !! k), (other !! k); intros [= <-]; done.
Qed.

Local Abbreviation turn :=
  (commit c other whenInSelf whenInOther whenInBoth).
Local Abbreviation held :=
  (kept c other whenInSelf whenInOther whenInBoth).

Lemma MergeCollection_step_commit (res : gmap K R)
    (calls : list MergeCall) (k : K) :
  MergeCollection_step zeroV zeroO c other
    whenInSelf whenInOther whenInBoth (res, calls) k
  = (turn res k, calls ++ option_list (selected_call c other k)).
Proof.
  unfold MergeCollection_step, commit, selected_call, comma_ok,
    index, index2.
  destruct (c !! k) as [v|], (other !! k) as [o|]; simpl; try done.
  by rewrite app_nil_r.
Qed.

Lemma MergeCollection_fold (ks : list K) (res0 : gmap K R)
    (calls0 : list MergeCall) :
  foldl (MergeCollection_step zeroV zeroO c other
           whenInSelf whenInOther whenInBoth) (res0, calls0) ks
  = (foldl turn res0 ks, calls0 ++ omap (selected_call c other) ks).
Proof.
  revert res0 calls0. induction ks as [|k ks IH]; intros res0 calls0.
  - simpl. by rewrite app_nil_r.
  - cbn [foldl]. rewrite MergeCollection_step_commit, IH.
    f_equal. rewrite <- app_assoc. f_equal. simpl.
    by destruct (selected_call c other k).
Qed.

Lemma commit_lookup_eq (res : gmap K R) (k : K) :
  turn res k !! k = held k (res !! k).
Proof.
  unfold commit, kept.
  destruct (selected_call c other k) as [cl|]; [|done]. simpl.
  destruct (keep _); [|done]. by rewrite lookup_insert_eq.
Qed.

Lemma commit_lookup_ne (res : gmap K R) (k0 k : K) :
  k0 ≠ k → turn res k0 !! k = res !! k.
Proof.
  intros Hne. unfold commit.
  destruct (selected_call c other k0) as [cl|]; [|done]. simpl.
  destruct (keep _); [|done]. by rewrite lookup_insert_ne.
Qed.

Lemma kept_idemp (k : K) (before : option R) :
  held k (held k before) = held k before.
Proof.
  unfold kept.
  destruct (selected_call c other k) as [cl|]; [|done]. simpl.
  by destruct (keep _).
Qed.

Lemma commit_fold_lookup (ks : list K) (res0 : gmap K R) (k : K) :
  foldl turn res0 ks !! k
  = if decide (k ∈ ks) then held k (res0 !! k) else res0 !! k.
Proof.
  revert res0. induction ks as [|k0 ks IH]; intros res0; cbn [foldl].
  - destruct (decide (k ∈ [])) as [Hin|_]; [|done].
    by apply elem_of_nil in Hin.
  - rewrite IH. destruct (decide (k0 = k)) as [->|Hne].
    + rewrite commit_lookup_eq, kept_idemp.
      destruct (decide (k ∈ k :: ks)) as [_|Hnot]; [|set_solver].
      by destruct (decide (k ∈ ks)).
    + rewrite (commit_lookup_ne res0 k0 k Hne).
      destruct (decide (k ∈ ks)) as [Hin|Hnin];
        destruct (decide (k ∈ k0 :: ks)) as [Hin'|Hnin'];
        try done; set_solver.
Qed.

Lemma omap_cons_app {X Y} (f : X → option Y) (x : X) (l : list X) :
  omap f (x :: l) = option_list (f x) ++ omap f l.
Proof. simpl. by destruct (f x). Qed.

Lemma calls_of_key_one (k0 k : K) :
  filter (λ cl, call_key cl = k) (option_list (selected_call c other k0))
  = if decide (k0 = k) then option_list (selected_call c other k0) else [].
Proof.
  destruct (selected_call c other k0) as [cl|] eqn:Hcl; simpl.
  - pose proof (selected_call_key k0 cl Hcl) as Hkey.
    rewrite filter_cons, filter_nil.
    destruct (decide (call_key cl = k)), (decide (k0 = k));
      congruence.
  - by destruct (decide (k0 = k)).
Qed.

Lemma calls_of_key (ks : list K) (k : K) :
  NoDup ks →
  filter (λ cl, call_key cl = k) (omap (selected_call c other) ks)
  = if decide (k ∈ ks) then option_list (selected_call c other k) else [].
Proof.
  induction 1 as [|k0 ks Hk0 Hnd IH].
  - destruct (decide (k ∈ [])) as [Hin|_]; [|done].
    by apply elem_of_nil in Hin.
  - rewrite omap_cons_app, filter_app, IH, calls_of_key_one.
    destruct (decide (k0 = k)) as [->|Hne].
    + destruct (decide (k ∈ ks)) as [|_]; [done|].
      destruct (decide (k ∈ k :: ks)) as [_|Hnot]; [|set_solver].
      by rewrite app_nil_r.
    + destruct (decide (k ∈ ks)) as [Hin|Hnin];
        destruct (decide (k ∈ k0 :: ks)) as [Hin'|Hnin'];
        try done; set_solver.
Qed.

(** C4.  For every key, the calls made with that key are exactly the
    one call that membership selects ([whenInBoth] with both values
    for a key in both maps, [whenInSelf] for a key only in [c],
    [whenInOther] for a key only in [other]), a call is selected
    exactly for the keys present in [c] or in [other], and the result
    maps the key to the value of the returned Keep-decision exactly
    when that decision has [keep = true]; otherwise the key is
    absent. *)
Theorem MergeCollection_calls_and_result
    (es : list (K * V)) (es_other : list (K * O)) (ks : list K) (k : K) :
  range_order c es → range_order other es_other →
  ks ≡ₚ elements (merge_keys es es_other) →
  let out := MergeCollection zeroV zeroO c other
               whenInSelf whenInOther whenInBoth ks in
  filter (λ cl, call_key cl = k) out.2
    = option_list (selected_call c other k) ∧
  (is_Some (selected_call c other k)
     ↔ is_Some (c !! k) ∨ is_Some (other !! k)) ∧
  out.1 !! k
    = match selected_call c other k with
      | Some cl =>
          let kp := call_result whenInSelf whenInOther whenInBoth cl in
          if keep kp then Some (value kp) else None
      | None => None
      end.
Proof.
  intros Hc Ho Hks out. subst out. unfold MergeCollection.
  rewrite MergeCollection_fold. simpl.
  assert (NoDup ks) as Hnd.
  { rewrite Hks. apply NoDup_elements. }
  assert (k ∈ ks ↔ is_Some (selected_call c other k)) as Hin.
  { rewrite Hks, elem_of_elements, (merge_keys_dom es es_other Hc Ho).
    rewrite elem_of_union, !elem_of_dom. symmetry.
    apply selected_call_is_Some. }
  split_and!.
  - rewrite (calls_of_key ks k Hnd).
    destruct (decide (k ∈ ks)) as [|Hnot]; [done|].
    destruct (selected_call c other k) as [cl|] eqn:Hcl; [|done].
    exfalso. apply Hnot, Hin. by eexists.
  - apply selected_call_is_Some.
  - rewrite commit_fold_lookup, lookup_empty.
    destruct (decide (k ∈ ks)) as [Hyes|Hnot]; [done|].
    destruct (selected_call c other k) as [cl|] eqn:Hcl; [|done].
    exfalso. apply Hnot, Hin. by eexists.
Qed.
End MergeFacts.

(** ** CombineEntries *)

Section CombineFacts.
Context `{Countable K} {V Any : Type}.
Variable assertK : Any → option K.
Variable assertV : Any → option V.
Variable combine : V → V → K → V.

Lemma CombineEntries_typed (entries : list (Any * Any))
    (tes : list (K * V)) (st : gmap K V * list (V * V * K)) :
  asserted assertK assertV entries tes →
  foldl (CombineEntries_step assertK assertV combine) (Some st) entries
  = Some (foldl (typed_step combine) st tes).
Proof.
  intros Hte. revert st.
  induction Hte as [|entry te entries tes [HK HV] _ IH]; intros st.
  - done.
  - cbn [foldl]. rewrite <- IH. f_equal.
    unfold CombineEntries_step, typed_step. destruct st as [coll calls].
    simpl. rewrite HK, HV. simpl. by destruct (coll !! te.1).
Qed.

Lemma typed_step_lookup_ne (st : gmap K V * list (V * V * K))
    (te : K * V) (k : K) :
  te.1 ≠ k →
  (typed_step combine st te).1 !! k = st.1 !! k ∧
  filter (λ cl, cl.2 = k) (typed_step combine st te).2
  = filter (λ cl, cl.2 = k) st.2.
Proof.
  intros Hne. unfold typed_step. destruct (st.1 !! te.1) as [old|]; simpl.
  - rewrite lookup_insert_ne by done. split; [done|].
    rewrite filter_app, filter_cons, filter_nil. simpl.
    rewrite decide_False by done. by rewrite app_nil_r.
  - by rewrite lookup_insert_ne by done.
Qed.

Lemma typed_fold (tes : list (K * V))
    (st : gmap K V * list (V * V * K)) (k : K) :
  (foldl (typed_step combine) st tes).1 !! k
  = fold_from combine k (st.1 !! k) (values_of k tes) ∧
  filter (λ cl, cl.2 = k) (foldl (typed_step combine) st tes).2
  = filter (λ cl, cl.2 = k) st.2
    ++ fold_calls_from combine k (st.1 !! k) (values_of k tes).
Proof.
  revert st. induction tes as [|[k0 v0] tes IH]; intros st.
  - simpl. unfold fold_from, fold_calls_from.
    destruct (st.1 !! k); simpl; by rewrite app_nil_r.
  - cbn [foldl values_of]. destruct (IH (typed_step combine st (k0, v0)))
      as [IHres IHcalls].
    rewrite IHres, IHcalls. clear IHres IHcalls.
    destruct (decide (k0 = k)) as [->|Hne].
    + unfold typed_step. simpl.
      destruct (st.1 !! k) as [old|] eqn:Hold; simpl.
      * rewrite lookup_insert_eq. split; [done|].
        rewrite filter_app, filter_cons, filter_nil. simpl.
        rewrite decide_True by done. by rewrite <- app_assoc.
      * by rewrite lookup_insert_eq.
    + destruct (typed_step_lookup_ne st (k0, v0) k Hne) as [-> ->].
      done.
Qed.

Lemma fold_combine_calls_length (k : K) (first : V) (later : list V) :
  length (fold_combine_calls combine k first later) = length later.
Proof.
  revert first. induction later as [|v later IH]; intros first; simpl;
    [done|]. by rewrite IH.
Qed.

(** C5.  When the type assertions succeed on every entry,
    [CombineEntries] returns; a key with no occurrence is absent; and
    a key whose occurrences carry the values [first :: later], in
    input order, is mapped to the left fold
    [combine(... combine(combine(first, v1, k), v2, k) ..., vn, k)],
    the calls of [combine] made for the key are those of that fold, in
    order, each on the stored value, the new value and the key, and
    they are as many as the later occurrences: one less than the
    occurrences of the key. *)
Theorem CombineEntries_left_fold (entries : list (Any * Any))
    (tes : list (K * V)) :
  asserted assertK assertV entries tes →
  ∃ res calls,
    CombineEntries assertK assertV entries combine = Some (res, calls) ∧
    ∀ k,
      match values_of k tes with
      | [] => res !! k = None ∧ filter (λ cl, cl.2 = k) calls = []
      | first :: later =>
          res !! k = Some (fold_combine combine k first later) ∧
          filter (λ cl, cl.2 = k) calls
            = fold_combine_calls combine k first later ∧
          length (filter (λ cl, cl.2 = k) calls)
            = length (values_of k tes) - 1
      end.
Proof.
  intros Hte. unfold CombineEntries.
  rewrite (CombineEntries_typed entries tes (∅, []) Hte).
  destruct (foldl (typed_step combine) (∅, []) tes) as [res calls] eqn:Hout.
  exists res, calls. split; [done|]. intros k.
  destruct (typed_fold tes (∅, []) k) as [Hres Hcalls].
  rewrite Hout in Hres, Hcalls. simpl in Hres, Hcalls.
  rewrite lookup_empty in Hres, Hcalls.
  unfold fold_from in Hres. unfold fold_calls_from in Hcalls.
  destruct (values_of k tes) as [|first later] eqn:Hvals.
  - done.
  - split_and!; [done|done|].
    rewrite Hcalls, fold_combine_calls_length. simpl. lia.
Qed.
End CombineFacts.

(** ** GroupBy *)

Section GroupByFacts.
Context `{Countable K} {Item : Type}.
Variable keySelector : Item → Z → K.

Lemma calls_from_imap (start : Z) (items : list Item) :
  calls_from start items
  = imap (λ i item, (item, (start + Z.of_nat i)%Z)) items.
Proof.
  revert start. induction items as [|item items IH]; intros start; simpl.
  - done.
  - rewrite Z.add_0_r. f_equal. rewrite IH. apply imap_ext.
    intros i x _. simpl. f_equal. lia.
Qed.

Lemma group_from_filter (k : K) (start : Z) (items : list Item) :
  group_from keySelector k start items
  = (filter (λ p, keySelector p.1 p.2 = k) (calls_from start items)).*1.
Proof.
  revert start. induction items as [|item items IH]; intros start; simpl.
  - done.
  - rewrite filter_cons. simpl.
    destruct (decide (keySelector item start = k)); simpl;
      by rewrite IH.
Qed.

Lemma GroupBy_fold (items : list Item) (i : Z)
    (res0 : gmap K (list Item)) (calls0 : list (Item * Z)) :
  (foldl (GroupBy_step keySelector) (i, res0, calls0) items).2
  = calls0 ++ calls_from i items ∧
  ∀ k, (foldl (GroupBy_step keySelector) (i, res0, calls0) items).1.2 !! k
       = grouped (res0 !! k) (group_from keySelector k i items).
Proof.
  revert i res0 calls0.
  induction items as [|item items IH]; intros i res0 calls0.
  - simpl. rewrite app_nil_r. split; [done|]. intros k.
    unfold grouped. destruct (res0 !! k); simpl; by rewrite ?app_nil_r.
  - cbn [foldl GroupBy_step calls_from group_from].
    destruct (IH (i + 1)%Z
                (<[keySelector item i :=
                     index [] res0 (keySelector item i) ++ [item]]> res0)
                (calls0 ++ [(item, i)])) as [IHcalls IHres].
    split.
    + rewrite IHcalls. by rewrite <- app_assoc.
    + intros k. rewrite IHres.
      destruct (decide (keySelector item i = k)) as [->|Hne].
      * rewrite lookup_insert_eq. unfold grouped, index, index2.
        destruct (res0 !! k); simpl; by rewrite <- ?app_assoc.
      * by rewrite lookup_insert_ne.
Qed.

(** C8.  [GroupBy] calls the selector once per item, in input order,
    on the item and its zero-based position in the input, and the
    result maps a key to the items of the calls that produced it, in
    input order; a key that no call produced is absent. *)
Theorem GroupBy_groups (items : list Item) (k : K) :
  let out := GroupBy items keySelector in
  out.2 = imap (λ i item, (item, Z.of_nat i)) items ∧
  out.1 !! k
  = match (filter (λ p, keySelector p.1 p.2 = k) out.2).*1 with
    | [] => None
    | item :: group => Some (item :: group)
    end.
Proof.
  unfold GroupBy.
  destruct (GroupBy_fold items 0 ∅ []) as [Hcalls Hres].
  specialize (Hres k).
  destruct (foldl (GroupBy_step keySelector) (0%Z, ∅, []) items)
    as [[i res] calls].
  simpl in *. subst calls. split.
  - by rewrite calls_from_imap.
  - rewrite Hres, lookup_empty, <- group_from_filter.
    unfold grouped. by destruct (group_from keySelector k 0 items).
Qed.
End GroupByFacts.

(** ** Reverse, Sort and their copying forms *)

Section OrderingFacts.
Context `{Countable K} {V : Type}.
Variable zero : V.
Variable SliceStable : (K → K → bool) → list K → list K.

Lemma insert_middle {A} (a : list A) (x y : A) (rest : list A) :
  <[length a := y]> (a ++ x :: rest) = a ++ y :: rest.
Proof. induction a as [|z a IH]; simpl; [done|]. by rewrite IH. Qed.

Lemma swap_ends {A} (a : list A) (x : A) (mid : list A) (y : A)
    (b : list A) :
  let keys := a ++ x :: mid ++ y :: b in
  keys !! length a = Some x ∧
  keys !! length (a ++ x :: mid) = Some y ∧
  <[length (a ++ x :: mid) := x]> (<[length a := y]> keys)
  = (a ++ [y]) ++ mid ++ x :: b.
Proof.
  intros keys. subst keys. split_and!.
  - by apply list_lookup_middle.
  - replace (a ++ x :: mid ++ y :: b) with ((a ++ x :: mid) ++ y :: b)
      by (by rewrite <- app_assoc).
    by apply list_lookup_middle.
  - rewrite insert_middle.
    replace (a ++ y :: mid ++ y :: b) with ((a ++ y :: mid) ++ y :: b)
      by (by rewrite <- app_assoc).
    replace (length (a ++ x :: mid)) with (length (a ++ y :: mid))
      by (by rewrite !length_app).
    rewrite insert_middle. by rewrite <- !app_assoc.
Qed.

Lemma add_1_in_range (i : nat) (n : Z) :
  GoInt.in_range n → (Z.of_nat i < n)%Z →
  GoInt.add (Z.of_nat i) 1 = Z.of_nat (S i).
Proof.
  intros Hn Hi. unfold GoInt.add. rewrite wrap_in_range; [lia|].
  unfold GoInt.in_range, GoInt.min_int, GoInt.max_int in *. lia.
Qed.

Lemma sub_1_in_range (j : nat) (n : Z) :
  GoInt.in_range n → (Z.of_nat j ≤ n)%Z →
  GoInt.sub (Z.of_nat j) 1 = (Z.of_nat j - 1)%Z.
Proof.
  intros Hn Hj. unfold GoInt.sub. rewrite wrap_in_range; [lia|].
  unfold GoInt.in_range, GoInt.min_int, GoInt.max_int in *. lia.
Qed.

(** The swap loop, started on the two ends of [mid] inside
    [a ++ mid ++ b], reverses [mid] and leaves [a] and [b]; as many
    units of fuel as [mid] has elements are enough. *)
Lemma reverse_loop_middle (fuel : nat) (a mid b : list K) :
  length mid ≤ fuel →
  GoInt.in_range (GoInt.len (a ++ mid ++ b)) →
  reverse_loop fuel (Z.of_nat (length a))
    (Z.of_nat (length a + length mid) - 1) (a ++ mid ++ b)
  = Some (a ++ reverse mid ++ b).
Proof.
  revert a mid b. induction fuel as [|fuel IH]; intros a mid b Hlen Hrange.
  - destruct mid; [|simpl in Hlen; lia]. simpl.
    by rewrite decide_False by lia.
  - destruct mid as [|x mid].
    { simpl. by rewrite decide_False by lia. }
    destruct mid as [|y mid _] using rev_ind.
    { simpl. by rewrite decide_False by lia. }
    replace (a ++ (x :: mid ++ [y]) ++ b) with (a ++ x :: mid ++ y :: b)
      in * by (by simpl; rewrite <- app_assoc).
    replace (Z.of_nat (length a + length (x :: mid ++ [y])) - 1)%Z
      with (Z.of_nat (length (a ++ x :: mid)))
      by (simpl; rewrite !length_app; simpl; lia).
    destruct (swap_ends a x mid y b) as (Hx & Hy & Hswap).
    assert (length (a ++ x :: mid) < length (a ++ x :: mid ++ y :: b))
      as Hlt by (rewrite !length_app; simpl; rewrite length_app; simpl; lia).
    assert (length a < length (a ++ x :: mid)) as Hlt'
      by (rewrite !length_app; simpl; lia).
    cbn [reverse_loop]. rewrite decide_True by lia.
    rewrite !slice_at_lookup, Hx. cbn [mbind option_bind].
    rewrite Hy. cbn [mbind option_bind].
    rewrite !Nat2Z.id, Hswap.
    rewrite (add_1_in_range (length a) _ Hrange)
      by (unfold GoInt.len; lia).
    rewrite (sub_1_in_range (length (a ++ x :: mid)) _ Hrange)
      by (unfold GoInt.len; lia).
    replace (S (length a)) with (length (a ++ [y]))
      by (rewrite length_app; simpl; lia).
    replace (Z.of_nat (length (a ++ x :: mid)) - 1)%Z
      with (Z.of_nat (length (a ++ [y]) + length mid) - 1)%Z
      by (rewrite !length_app; simpl; lia).
    rewrite IH.
    + f_equal. rewrite reverse_cons, reverse_app. simpl.
      by rewrite <- !app_assoc.
    + simpl in Hlen. rewrite length_app in Hlen. simpl in Hlen. lia.
    + rewrite <- Hswap. unfold GoInt.len in *.
      by rewrite !length_insert.
Qed.
Lemma reverse_loop_reverse (keys : list K) :
  GoInt.in_range (GoInt.len keys) →
  reverse_loop (length keys) 0 (GoInt.sub (GoInt.len keys) 1) keys
  = Some (reverse keys).
Proof.
  intros Hrange.
  pose proof (reverse_loop_middle (length keys) [] keys []) as Hloop.
  rewrite !app_nil_r in Hloop. simpl in Hloop.
  unfold GoInt.len at 1.
  rewrite (sub_1_in_range (length keys) (GoInt.len keys))
    by (done || (unfold GoInt.len; lia)).
  by apply Hloop.
Qed.

Lemma rebuild_fold (m : gmap K V) (keys : list K) (acc : gmap K V) (k : K) :
  foldl (λ newItems k, <[k := index zero m k]> newItems) acc keys !! k
  = if decide (k ∈ keys) then Some (index zero m k) else acc !! k.
Proof.
  revert acc. induction keys as [|k0 keys IH]; intros acc; cbn [foldl].
  - destruct (decide (k ∈ [])) as [Hin|_]; [|done].
    by apply elem_of_nil in Hin.
  - rewrite IH. destruct (decide (k ∈ keys)) as [Hin|Hnin].
    + destruct (decide (k ∈ k0 :: keys)); [done|set_solver].
    + destruct (decide (k0 = k)) as [->|Hne].
      * rewrite lookup_insert_eq.
        destruct (decide (k ∈ k :: keys)); [done|set_solver].
      * rewrite lookup_insert_ne by done.
        destruct (decide (k ∈ k0 :: keys)); [set_solver|done].
Qed.

(** Rebuilding a map from any arrangement of its keys gives the map
    back. *)
Lemma rebuild_permutation (m : gmap K V) (es : list (K * V))
    (keys : list K) :
  range_order m es → keys ≡ₚ es.*1 → rebuild zero m keys = m.
Proof.
  intros Hes Hkeys. apply map_eq. intros k. unfold rebuild.
  rewrite rebuild_fold, lookup_empty.
  destruct (decide (k ∈ keys)) as [Hin|Hnin].
  - rewrite Hkeys in Hin. apply (range_order_keys m es k Hes) in Hin.
    destruct Hin as [v Hv]. by rewrite (index_Some zero m k v Hv).
  - rewrite Hkeys in Hnin. rewrite (range_order_keys m es k Hes) in Hnin.
    symmetry. by apply eq_None_not_Some.
Qed.

Lemma Reverse_entries (m : gmap K V) (es : list (K * V)) :
  range_order m es → GoInt.in_range (Size m) →
  Reverse zero m es = Some m.
Proof.
  intros Hes Hrange. unfold Reverse.
  rewrite reverse_loop_reverse
    by (by rewrite (len_keysUnlocked m es Hes)).
  simpl. f_equal. apply (rebuild_permutation m es); [done|].
  by rewrite keysUnlocked_fst, reverse_Permutation.
Qed.

Lemma Sort_entries (compare : Comparator) (m : gmap K V)
    (es : list (K * V)) :
  (∀ less keys, SliceStable less keys ≡ₚ keys) →
  range_order m es →
  Sort zero SliceStable compare m es = m.
Proof.
  intros Hperm Hes. unfold Sort.
  apply (rebuild_permutation m es); [done|].
  by rewrite Hperm, keysUnlocked_fst.
Qed.
End OrderingFacts.

Section HeapFacts.
Context `{Countable K} {V : Type}.
Variable zero : V.
Variable SliceStable : (K → K → bool) → list K → list K.
Implicit Types (σ : gmap positive (gmap K V)) (c : positive).

Lemma Heap_Clone_fresh σ c (m : gmap K V) (es : list (K * V)) :
  σ !! c = Some m →
  ∃ clone,
    Heap.Clone c es σ = Some (clone, <[clone := Clone es]> σ) ∧
    σ !! clone = None ∧ clone ≠ c.
Proof.
  intros Hc. exists (fresh (dom σ)).
  assert (σ !! fresh (dom σ) = None) as Hfresh.
  { apply not_elem_of_dom, is_fresh. }
  unfold Heap.Clone, Heap.New. rewrite Hc. simpl.
  rewrite insert_insert_eq. split_and!; [done|done|].
  intros Heq. rewrite Heq in Hfresh. congruence.
Qed.

(** C9.  [ToReversed] and [ToSorted] each return a collection at an
    address that was not in use, so not that of [c], and leave the
    entries of [c], and of every other collection there was, as they
    were. *)
Theorem ToReversed_ToSorted_leave_original σ c (m : gmap K V)
    (compare : Comparator) (es es' : list (K * V)) :
  σ !! c = Some m → GoInt.in_range (GoInt.len es') →
  (∃ c' σ',
      Heap.ToReversed zero c es es' σ = Some (c', σ') ∧
      c' ≠ c ∧ σ !! c' = None ∧ is_Some (σ' !! c') ∧
      σ' !! c = Some m ∧ ∀ p, p ≠ c' → σ' !! p = σ !! p) ∧
  (∃ c' σ',
      Heap.ToSorted zero SliceStable c compare es es' σ = Some (c', σ') ∧
      c' ≠ c ∧ σ !! c' = None ∧ is_Some (σ' !! c') ∧
      σ' !! c = Some m ∧ ∀ p, p ≠ c' → σ' !! p = σ !! p).
Proof.
  intros Hc Hrange.
  destruct (Heap_Clone_fresh σ c m es Hc) as (clone & Hclone & Hnew & Hne).
  split.
  - unfold Heap.ToReversed. rewrite Hclone. simpl.
    unfold Heap.Reverse. rewrite lookup_insert_eq. simpl.
    unfold Reverse. rewrite reverse_loop_reverse.
    2:{ unfold GoInt.len in *.
        by rewrite keysUnlocked_fst, length_fmap. }
    simpl. eexists clone, _. split; [done|].
    rewrite insert_insert_eq. split_and!; [done|done| | |].
    + rewrite lookup_insert_eq. by eexists.
    + by rewrite lookup_insert_ne.
    + intros p Hp. by rewrite lookup_insert_ne.
  - unfold Heap.ToSorted. rewrite Hclone. simpl.
    unfold Heap.Sort. rewrite lookup_insert_eq. simpl.
    eexists clone, _. split; [done|].
    rewrite insert_insert_eq. split_and!; [done|done| | |].
    + rewrite lookup_insert_eq. by eexists.
    + by rewrite lookup_insert_ne.
    + intros p Hp. by rewrite lookup_insert_ne.
Qed.

(** The copy holds the entries of the original, when the range orders
    are orders of its map and [SliceStable] rearranges its argument. *)
Lemma ToReversed_entries σ c (m : gmap K V) (es es' : list (K * V)) :
  σ !! c = Some m → range_order m es → range_order m es' →
  GoInt.in_range (Size m) →
  ∃ c', Heap.ToReversed zero c es es' σ = Some (c', <[c' := m]> σ) ∧
        σ !! c' = None.
Proof.
  intros Hc Hes Hes' Hrange.
  destruct (Heap_Clone_fresh σ c m es Hc) as (clone & Hclone & Hnew & Hne).
  exists clone. split; [|done].
  unfold Heap.ToReversed. rewrite Hclone. simpl.
  unfold Heap.Reverse. rewrite lookup_insert_eq. simpl.
  rewrite (Clone_range m es Hes).
  rewrite (Reverse_entries zero m es' Hes' Hrange). simpl.
  by rewrite insert_insert_eq.
Qed.

Lemma ToSorted_entries σ c (m : gmap K V) (compare : Comparator)
    (es es' : list (K * V)) :
  (∀ less keys, SliceStable less keys ≡ₚ keys) →
  σ !! c = Some m → range_order m es → range_order m es' →
  ∃ c', Heap.ToSorted zero SliceStable c compare es es' σ
        = Some (c', <[c' := m]> σ) ∧
        σ !! c' = None.
Proof.
  intros Hperm Hc Hes Hes'.
  destruct (Heap_Clone_fresh σ c m es Hc) as (clone & Hclone & Hnew & Hne).
  exists clone. split; [|done].
  unfold Heap.ToSorted. rewrite Hclone. simpl.
  unfold Heap.Sort. rewrite lookup_insert_eq. simpl.
  rewrite (Clone_range m es Hes).
  rewrite (Sort_entries zero SliceStable compare m es' Hperm Hes').
  by rewrite insert_insert_eq.
Qed.
End HeapFacts.

Lemma in_range_small (z : Z) : (- 1000 ≤ z ≤ 1000)%Z → GoInt.in_range z.
Proof.
  unfold GoInt.in_range, GoInt.min_int, GoInt.max_int. lia.
Qed.

Lemma First_Last_by_amount_witness :
  let m := sample3 in
  let es := map_to_list m in
  range_order m es ∧
  GoInt.in_range (-2) ∧ (-2)%Z ≠ GoInt.min_int ∧ GoInt.in_range (Size m) ∧
  First 0%Z m [es; es] [(-2)%Z] = Last 0%Z m [es] [2%Z] ∧
  First 0%Z m [es; es] [(-2)%Z] = Returns (AnySlice [10%Z; 20%Z]) ∧
  Last 0%Z m [es; es] [(-2)%Z] = First 0%Z m [es] [2%Z] ∧
  Last 0%Z m [es; es] [(-2)%Z] = Returns (AnySlice [30%Z; 10%Z]).
Proof.
  intros m es.
  assert (range_order m es) as Hes by (unfold range_order; reflexivity).
  assert (GoInt.in_range (-2)) as Hn by (apply in_range_small; lia).
  assert ((-2)%Z ≠ GoInt.min_int) as Hmin by (vm_compute; discriminate).
  assert (GoInt.in_range (Size m)) as Hsz
    by (apply in_range_small; vm_compute; split; discriminate).
  pose proof (First_Last_by_amount 0%Z m es es [] (-2)%Z
                Hes Hes Hn Hmin Hsz) as Hthm.
  vm_compute in Hthm.
  do 4 (split; [assumption|]).
  vm_compute. exact Hthm.
Defined.

(** C3 as stated fails: on a collection that is not empty [First(0)]
    returns nil, which is not an empty slice (the package's test for
    [First] expects nil and that for [Last] an empty slice); and on an
    empty collection [Last(0)] and [First(5)] return nil as well. *)
Lemma First_zero_returns_nil :
  First 0%Z sample1 [map_to_list sample1] [0%Z] = Returns AnyNil ∧
  First 0%Z sample1 [map_to_list sample1] [0%Z] ≠ Returns (AnySlice []) ∧
  Last 0%Z (∅ : gmap string Z) [map_to_list (∅ : gmap string Z)] [0%Z]
    = Returns AnyNil ∧
  First 0%Z (∅ : gmap string Z) [map_to_list (∅ : gmap string Z)] [5%Z]
    = Returns AnyNil.
Proof. vm_compute. split_and!; done. Qed.

Lemma At_KeyAt_agree_witness :
  let m := sample3 in
  let es := map_to_list m in
  range_order m es ∧ GoInt.in_range (-1) ∧ GoInt.in_range (Size m) ∧
  (∃ v k found,
      At 0%Z m es (-1) = Some (v, found) ∧
      KeyAt "" es (-1) = Some (k, found) ∧
      (found = true ↔ (0 ≤ -1 + Size m < Size m)%Z)) ∧
  (∀ v k,
      At 0%Z m es (-1) = Some (v, true) →
      KeyAt "" es (-1) = Some (k, true) →
      m !! k = Some v).
Proof.
  intros m es.
  assert (range_order m es) as Hes by (unfold range_order; reflexivity).
  assert (GoInt.in_range (-1)) as Hn by (apply in_range_small; lia).
  assert (GoInt.in_range (Size m)) as Hsz
    by (apply in_range_small; vm_compute; split; discriminate).
  pose proof (At_KeyAt_agree 0%Z m es es "" (-1)%Z Hes Hes Hn Hsz) as Hthm.
  do 3 (split; [assumption|]).
  exact Hthm.
Defined.

Lemma Union_keys_values_witness :
  let A : gmap string Z := <["y" := 2%Z]> (<["x" := 1%Z]> ∅) in
  let B : gmap string Z := <["z" := 30%Z]> (<["y" := 20%Z]> ∅) in
  range_order A (map_to_list A) ∧ range_order B (map_to_list B) ∧
  (is_Some (Union (map_to_list A) (map_to_list B) !! "y")
     ↔ is_Some (A !! "y") ∨ is_Some (B !! "y")) ∧
  Union (map_to_list A) (map_to_list B) !! "y" = Some 2%Z.
Proof.
  intros A B.
  assert (range_order A (map_to_list A)) as HA
    by (unfold range_order; reflexivity).
  assert (range_order B (map_to_list B)) as HB
    by (unfold range_order; reflexivity).
  destruct (Union_keys_values A B (map_to_list A) (map_to_list B) "y" HA HB)
    as (Hkeys & Hboth & _).
  split_and!; [assumption|assumption|exact Hkeys|].
  apply (Hboth 2%Z 20%Z); reflexivity.
Defined.

Lemma Union_Intersection_Size_witness :
  let A : gmap string Z := <["y" := 2%Z]> (<["x" := 1%Z]> ∅) in
  let B : gmap string Z := <["z" := 30%Z]> (<["y" := 20%Z]> ∅) in
  range_order A (map_to_list A) ∧ range_order B (map_to_list B) ∧
  (Size (Union (map_to_list A) (map_to_list B))
   + Size (Intersection (map_to_list A) B))%Z = (Size A + Size B)%Z.
Proof.
  intros A B.
  assert (range_order A (map_to_list A)) as HA
    by (unfold range_order; reflexivity).
  assert (range_order B (map_to_list B)) as HB
    by (unfold range_order; reflexivity).
  split_and!; [assumption|assumption|].
  exact (Union_Intersection_Size A B _ _ _ HA HB HA).
Defined.

(** The scenario of the specification for [Merge]:
    [A = {x:1, y:2}], [B = {y:20, z:30}], values kept as they are and
    added for a key in both. *)
Lemma MergeCollection_calls_and_result_witness :
  let A : gmap string Z := <["y" := 2%Z]> (<["x" := 1%Z]> ∅) in
  let B : gmap string Z := <["z" := 30%Z]> (<["y" := 20%Z]> ∅) in
  let ks := elements (merge_keys (map_to_list A) (map_to_list B)) in
  let out := MergeCollection 0%Z 0%Z A B
               (λ v _, mkKeep true v) (λ o _, mkKeep true o)
               (λ v o _, mkKeep true (GoInt.add v o)) ks in
  range_order A (map_to_list A) ∧ range_order B (map_to_list B) ∧
  ks ≡ₚ elements (merge_keys (map_to_list A) (map_to_list B)) ∧
  filter (λ cl, call_key cl = "y") out.2 = [CallInBoth 2%Z 20%Z "y"] ∧
  out.1 !! "y" = Some 22%Z.
Proof.
  intros A B ks out.
  assert (range_order A (map_to_list A)) as HA
    by (unfold range_order; reflexivity).
  assert (range_order B (map_to_list B)) as HB
    by (unfold range_order; reflexivity).
  assert (ks ≡ₚ elements (merge_keys (map_to_list A) (map_to_list B)))
    as Hks by reflexivity.
  destruct (MergeCollection_calls_and_result 0%Z 0%Z
              (λ v _, mkKeep true v) (λ o _, mkKeep true o)
              (λ v o _, mkKeep true (GoInt.add v o))
              A B (map_to_list A) (map_to_list B) ks "y" HA HB Hks)
    as (Hcalls & _ & Hres).
  split_and!; [assumption|assumption|assumption| |].
  - unfold out. rewrite Hcalls. reflexivity.
  - unfold out. rewrite Hres. reflexivity.
Defined.

Example MergeCollection_scenario :
  let A : gmap string Z := <["y" := 2%Z]> (<["x" := 1%Z]> ∅) in
  let B : gmap string Z := <["z" := 30%Z]> (<["y" := 20%Z]> ∅) in
  let ks := elements (merge_keys (map_to_list A) (map_to_list B)) in
  (MergeCollection 0%Z 0%Z A B
     (λ v _, mkKeep true v) (λ o _, mkKeep true o)
     (λ v o _, mkKeep true (GoInt.add v o)) ks).1
  = <["z" := 30%Z]> (<["y" := 22%Z]> (<["x" := 1%Z]> ∅)).
Proof. vm_compute. reflexivity. Qed.

(** The scenario of the specification for [CombineEntries]: three
    entries for one key, combined by multiplication. *)
Lemma CombineEntries_left_fold_witness :
  let entries := [(VString "k", VInt 5); (VString "k", VInt 10);
                  (VString "k", VInt 15)] in
  let tes := [("k", 5%Z); ("k", 10%Z); ("k", 15%Z)] in
  let multiply := λ (a b : Z) (_ : string), GoInt.mul a b in
  asserted assert_string assert_int entries tes ∧
  ∃ res calls,
    CombineEntries assert_string assert_int entries multiply
      = Some (res, calls) ∧
    res !! "k" = Some 750%Z ∧
    filter (λ cl, cl.2 = "k") calls = [(5%Z, 10%Z, "k"); (50%Z, 15%Z, "k")] ∧
    length (filter (λ cl, cl.2 = "k") calls) = 2.
Proof.
  intros entries tes multiply.
  assert (asserted assert_string assert_int entries tes) as Hte
    by (repeat constructor).
  split; [assumption|].
  destruct (CombineEntries_left_fold assert_string assert_int multiply
              entries tes Hte) as (res & calls & Hout & Hkeys).
  exists res, calls. split; [assumption|].
  exact (Hkeys "k").
Defined.

Example CombineEntries_scenario :
  CombineEntries assert_string assert_int
    [(VString "k", VInt 5); (VString "k", VInt 10); (VString "k", VInt 15)]
    (λ (a b : Z) (_ : string), GoInt.mul a b)
  = Some (<["k" := 750%Z]> ∅, [(5%Z, 10%Z, "k"); (50%Z, 15%Z, "k")]).
Proof. vm_compute. reflexivity. Qed.

(** An entry whose key is not of the key type makes the call panic. *)
Example CombineEntries_panics :
  CombineEntries assert_string assert_int
    [(VString "k", VInt 5); (VInt 1, VInt 10)]
    (λ (a b : Z) (_ : string), GoInt.mul a b)
  = None.
Proof. reflexivity. Qed.

(** The scenario of the specification for [GroupBy]. *)
Example GroupBy_scenario :
  (GroupBy [1; 2; 3; 4; 5; 6]%Z
     (λ (item _ : Z), if (item `mod` 2 =? 0)%Z then "even" else "odd")).1
  = <["odd" := [1; 3; 5]%Z]> (<["even" := [2; 4; 6]%Z]> ∅).
Proof. vm_compute. reflexivity. Qed.

Lemma ToReversed_ToSorted_leave_original_witness :
  let σ : gmap positive (gmap string Z) := <[1%positive := sample3]> ∅ in
  let es := map_to_list sample3 in
  let compare : Comparator :=
    λ (a b : Z) (_ _ : string),
      if (a <? b)%Z then (-1)%Z else if (b <? a)%Z then 1%Z else 0%Z in
  σ !! 1%positive = Some sample3 ∧ GoInt.in_range (GoInt.len es) ∧
  (∃ c' σ',
      Heap.ToReversed 0%Z 1%positive es es σ = Some (c', σ') ∧
      c' ≠ 1%positive ∧ σ !! c' = None ∧ is_Some (σ' !! c') ∧
      σ' !! 1%positive = Some sample3 ∧ ∀ p, p ≠ c' → σ' !! p = σ !! p) ∧
  (∃ c' σ',
      Heap.ToSorted 0%Z insertion_sort 1%positive compare es es σ
        = Some (c', σ') ∧
      c' ≠ 1%positive ∧ σ !! c' = None ∧ is_Some (σ' !! c') ∧
      σ' !! 1%positive = Some sample3 ∧ ∀ p, p ≠ c' → σ' !! p = σ !! p).
Proof.
  intros σ es compare.
  assert (σ !! 1%positive = Some sample3) as Hc by reflexivity.
  assert (GoInt.in_range (GoInt.len es)) as Hrange
    by (apply in_range_small; vm_compute; split; discriminate).
  split; [assumption|]. split; [assumption|].
  exact (ToReversed_ToSorted_leave_original 0%Z insertion_sort
           σ 1%positive sample3 compare es es Hc Hrange).
Defined.

Example ToSorted_scenario :
  let σ : gmap positive (gmap string Z) := <[1%positive := sample3]> ∅ in
  let es := map_to_list sample3 in
  Heap.ToSorted 0%Z insertion_sort 1%positive
    (λ (a b : Z) (_ _ : string),
       if (a <? b)%Z then (-1)%Z else if (b <? a)%Z then 1%Z else 0%Z)
    es es σ
  = Some (2%positive, <[2%positive := sample3]> σ).
Proof. vm_compute. reflexivity. Qed.

(** * Further properties *)

(** ** The storage core *)

Section StorageFacts.
Context `{Countable K} {V : Type}.
Variable zero : V.
Implicit Types (m : gmap K V) (es : list (K * V)).

(** [Set] then [Get]: the key just set is found with the value set,
    every other key is found as before, and the size grows by one
    exactly when the key was absent. *)
Theorem Set_Get m (key k : K) (value : V) :
  Get zero key (Set_ key value m) = (value, true) ∧
  (k ≠ key → Get zero k (Set_ key value m) = Get zero k m) ∧
  Size (Set_ key value m)
  = (if Has zero key m then Size m else Size m + 1)%Z.
Proof.
  unfold Get, Set_, Has, Size, index2. split_and!.
  - by rewrite lookup_insert_eq.
  - intros Hne. by rewrite lookup_insert_ne.
  - destruct (m !! key) as [v|] eqn:Hkey; simpl.
    + rewrite map_size_insert_Some; [done|by eexists].
    + rewrite map_size_insert_None by done. lia.
Qed.

(** [Delete] reports whether the key was there; afterwards the key is
    gone, a second [Delete] reports false and changes nothing, every
    other key is found as before, and the size shrinks by one exactly
    when the key was there. *)
Theorem Delete_idempotent m (key k : K) :
  let '(m1, existed) := Delete key m in
  existed = Has zero key m ∧
  Has zero key m1 = false ∧
  Delete key m1 = (m1, false) ∧
  (k ≠ key → Get zero k m1 = Get zero k m) ∧
  Size m = (if existed then Size m1 + 1 else Size m1)%Z.
Proof.
  unfold Delete, Has, Get, Size, index2, comma_ok. split_and!.
  - by destruct (m !! key).
  - by rewrite lookup_delete_eq.
  - rewrite lookup_delete_eq. by rewrite delete_delete_eq.
  - intros Hne. by rewrite lookup_delete_ne.
  - destruct (m !! key) as [v|] eqn:Hkey.
    + rewrite map_size_delete_Some; [|by eexists].
      assert (size m ≠ 0); [|lia].
      intros Hz. apply map_size_empty_iff in Hz. subst m.
      by rewrite lookup_empty in Hkey.
    + by rewrite map_size_delete_None.
Qed.

Lemma Values_snd es : Values es = es.*2.
Proof.
  unfold Values.
  enough (∀ acc, foldl (λ values e, values ++ [e.2]) acc es = acc ++ es.*2)
    as Hgen by apply Hgen.
  induction es as [|e es IH]; intros acc; simpl.
  - by rewrite app_nil_r.
  - rewrite IH. by rewrite <- app_assoc.
Qed.

Lemma Entries_id es : Entries es = es.
Proof.
  unfold Entries.
  enough (∀ acc, foldl (λ entries e, entries ++ [(e.1, e.2)]) acc es
                 = acc ++ es) as Hgen by apply Hgen.
  induction es as [|[k v] es IH]; intros acc; simpl.
  - by rewrite app_nil_r.
  - rewrite IH. by rewrite <- app_assoc.
Qed.

(** [Keys], [Values] and [Entries] each have as many elements as the
    collection has entries; the keys are those present, each once, and
    over one range order the i-th value is what the collection maps the
    i-th key to. *)
Theorem Keys_Values_Entries m es :
  range_order m es →
  GoInt.len (Keys es) = Size m ∧
  GoInt.len (Values es) = Size m ∧
  GoInt.len (Entries es) = Size m ∧
  NoDup (Keys es) ∧
  (∀ k, k ∈ Keys es ↔ is_Some (m !! k)) ∧
  (∀ kv, kv ∈ Entries es ↔ m !! kv.1 = Some kv.2) ∧
  Values es = index zero m <$> Keys es.
Proof.
  intros Hes. unfold Keys, GoInt.len, Size.
  rewrite keysUnlocked_fst, Values_snd, Entries_id, !length_fmap.
  rewrite (range_order_length m es Hes). split_and!; try done.
  - by apply (range_order_NoDup m es).
  - intros k. by apply range_order_keys.
  - intros [k v]. by apply range_order_elem.
  - by rewrite (range_order_index zero m es Hes).
Qed.

Lemma comma_ok_false {X} (mm : gmap K X) k :
  comma_ok mm k = false ↔ mm !! k = None.
Proof. unfold comma_ok. by destruct (mm !! k). Qed.

(** [HasAll] is true exactly when every listed key is present, so with
    no keys it is true; [HasAny] is true exactly when some listed key is
    present, so with no keys it is false. *)
Theorem HasAll_HasAny m (keys : list K) :
  (HasAll m keys = true ↔ ∀ k, k ∈ keys → is_Some (m !! k)) ∧
  (HasAny m keys = true ↔ ∃ k, k ∈ keys ∧ is_Some (m !! k)) ∧
  HasAll m [] = true ∧ HasAny m [] = false.
Proof.
  split_and!; [| |done|done].
  - induction keys as [|k keys IH]; simpl.
    + split; [|done]. intros _ k Hk. by apply elem_of_nil in Hk.
    + destruct (comma_ok m k) eqn:Hok; simpl.
      * apply comma_ok_true in Hok. rewrite IH. split.
        -- intros Hall k' [->|Hin]%elem_of_cons; [done|by apply Hall].
        -- intros Hall k' Hin. apply Hall. by right.
      * apply comma_ok_false in Hok. split; [done|]. intros Hall.
        destruct (Hall k) as [v Hv]; [by left|congruence].
  - induction keys as [|k keys IH]; simpl.
    + split; [done|]. intros (k & Hk & _). by apply elem_of_nil in Hk.
    + destruct (comma_ok m k) eqn:Hok; simpl.
      * apply comma_ok_true in Hok. split; [|done]. intros _.
        exists k. split; [by left|done].
      * apply comma_ok_false in Hok. rewrite IH. split.
        -- intros (k' & Hin & Hk'). exists k'. split; [by right|done].
        -- intros (k' & [->|Hin]%elem_of_cons & Hk').
           ++ rewrite Hok in Hk'. by destruct Hk'.
           ++ by exists k'.
Qed.
End StorageFacts.
(** ** Traversal and query *)

Section TraversalFacts.
Context `{Countable K} {V : Type}.
Variable zero : V.
Implicit Types (m : gmap K V) (es : list (K * V)).
Implicit Types (fn : V → K → gmap K V → bool).

Lemma Find_loop_first fn m es (zeroK : K) :
  ∃ v k found,
    Find_loop zero fn m es = (v, found) ∧
    FindKey_loop zeroK fn m es = (k, found) ∧
    (found = true ↔ ∃ e, e ∈ es ∧ fn e.2 e.1 m = true) ∧
    (found = true → (k, v) ∈ es ∧ fn v k m = true) ∧
    (found = false → v = zero ∧ k = zeroK).
Proof.
  induction es as [|[k0 v0] es IH]; simpl.
  - exists zero, zeroK, false. split_and!; try done.
    split; [done|]. intros (e & He & _). by apply elem_of_nil in He.
  - destruct (fn v0 k0 m) eqn:Hfn.
    + exists v0, k0, true. split_and!; try done.
      * split; [|done]. intros _. exists (k0, v0). split; [by left|done].
      * intros _. split; [by left|done].
    + destruct IH as (v & k & found & HF & HK & Hiff & Hyes & Hno).
      exists v, k, found. split_and!; try done.
      * rewrite Hiff. split.
        -- intros (e & He & Hfe). exists e. split; [by right|done].
        -- intros (e & [->|He]%elem_of_cons & Hfe).
           ++ simpl in Hfe. congruence.
           ++ by exists e.
      * intros Hf. destruct (Hyes Hf) as [Hin Hfe]. split; [by right|done].
Qed.

(** [Find] and [FindKey] find something exactly when some entry
    satisfies the callback; over one range order what they return is
    the value and the key of one entry, which satisfies the callback;
    and when nothing is found they return the zero values. *)
Theorem Find_FindKey m es fn (zeroK : K) :
  range_order m es →
  ∃ v k found,
    Find zero m es fn = (v, found) ∧
    FindKey zeroK m es fn = (k, found) ∧
    (found = true ↔ ∃ k' v', m !! k' = Some v' ∧ fn v' k' m = true) ∧
    (found = true → m !! k = Some v ∧ fn v k m = true) ∧
    (found = false → v = zero ∧ k = zeroK).
Proof.
  intros Hes. unfold Find, FindKey.
  destruct (Find_loop_first fn m es zeroK)
    as (v & k & found & HF & HK & Hiff & Hyes & Hno).
  exists v, k, found. split_and!; try done.
  - rewrite Hiff. split.
    + intros ([k' v'] & He & Hfe). exists k', v'. split; [|done].
      by apply (range_order_elem m es).
    + intros (k' & v' & Hk' & Hfe). exists (k', v'). split; [|done].
      by apply (range_order_elem m es).
  - intros Hf. destruct (Hyes Hf) as [Hin Hfe]. split; [|done].
    by apply (range_order_elem m es).
Qed.

Lemma descending_snoc {A} (l : list A) (x : A) :
  descending (l ++ [x]) = GoInt.len l :: descending l.
Proof.
  unfold descending, GoInt.len. rewrite length_app. simpl.
  replace (Z.of_nat (length l + 1)) with (Z.of_nat (length l) + 1)%Z by lia.
  rewrite seqZ_app by lia. simpl.
  change (seqZ (0 + Z.of_nat (length l)) 1) with [(0 + Z.of_nat (length l))%Z].
  by rewrite reverse_app.
Qed.

Lemma slice_at_app_l {A} (l l' : list A) (i : Z) :
  (i < GoInt.len l)%Z → slice_at (l ++ l') i = slice_at l i.
Proof.
  unfold slice_at, GoInt.len. intros Hi.
  destruct (decide (0 ≤ i)%Z); [|done]. apply lookup_app_l. lia.
Qed.

Lemma descending_bound {A} (l : list A) (i : Z) :
  i ∈ descending l → (0 ≤ i < GoInt.len l)%Z.
Proof.
  unfold descending. rewrite elem_of_reverse, elem_of_seqZ. lia.
Qed.

(** The descending loop over the keys of [es] meets the entries of
    [es] from the last to the first. *)
Lemma FindLast_loop_reverse fn m es (tail : list K) (zeroK : K) :
  (∀ e, e ∈ es → index zero m e.1 = e.2) →
  FindLast_loop zero fn m (es.*1 ++ tail) (descending es.*1)
  = Some (Find_loop zero fn m (reverse es)) ∧
  FindLastKey_loop zero zeroK fn m (es.*1 ++ tail) (descending es.*1)
  = Some (FindKey_loop zeroK fn m (reverse es)).
Proof.
  revert tail. induction es as [|e es IH] using rev_ind; intros tail Hidx.
  - done.
  - rewrite fmap_app. simpl. rewrite descending_snoc, reverse_app. simpl.
    unfold GoInt.len. rewrite slice_at_lookup.
    rewrite <- app_assoc. simpl.
    rewrite (list_lookup_middle es.*1 tail e.1 _ eq_refl). simpl.
    rewrite Hidx by (apply elem_of_app; right; by left).
    destruct (fn e.2 e.1 m); [done|].
    apply (IH (e.1 :: tail)). intros e' He'. apply Hidx.
    apply elem_of_app. by left.
Qed.

(** [FindLast] and [FindLastKey] do not panic, and return what [Find]
    and [FindKey] return over the reversed range order: the last entry
    of the snapshot that satisfies the callback. *)
Theorem FindLast_Find_reverse m es fn (zeroK : K) :
  range_order m es →
  FindLast zero m es fn = Some (Find zero m (reverse es) fn) ∧
  FindLastKey zero zeroK m es fn = Some (FindKey zeroK m (reverse es) fn) ∧
  range_order m (reverse es).
Proof.
  intros Hes. unfold FindLast, FindLastKey, Find, FindKey.
  rewrite keysUnlocked_fst.
  destruct (FindLast_loop_reverse fn m es [] zeroK) as [HF HK].
  { intros [k v] He. simpl. apply index_Some.
    by apply (range_order_elem m es). }
  rewrite app_nil_r in HF, HK. split_and!; [done|done|].
  unfold range_order in *. by rewrite reverse_Permutation.
Qed.

Lemma Some_Every_loops fn m es :
  (Some_ fn m es = true ↔ ∃ e, e ∈ es ∧ fn e.2 e.1 m = true) ∧
  (Every fn m es = true ↔ ∀ e, e ∈ es → fn e.2 e.1 m = true).
Proof.
  induction es as [|e es [IHS IHE]]; simpl.
  - split; split; try done.
    + intros (e & He & _). by apply elem_of_nil in He.
    + intros _ e He. by apply elem_of_nil in He.
  - destruct (fn e.2 e.1 m) eqn:Hfn; simpl.
    + split.
      * split; [|done]. intros _. exists e. split; [by left|done].
      * rewrite IHE. split.
        -- intros Hall e' [->|He']%elem_of_cons; [done|by apply Hall].
        -- intros Hall e' He'. apply Hall. by right.
    + split.
      * rewrite IHS. split.
        -- intros (e' & He' & Hfe). exists e'. split; [by right|done].
        -- intros (e' & [->|He']%elem_of_cons & Hfe); [congruence|].
           by exists e'.
      * split; [done|]. intros Hall.
        rewrite Hall in Hfn by (by left). done.
Qed.

(** [Some] is true exactly when some entry satisfies the callback and
    [Every] exactly when every entry does; so on an empty collection
    [Some] is false and [Every] is true, whatever the callback. *)
Theorem Some_Every m es fn :
  range_order m es →
  (Some_ fn m es = true ↔ ∃ k v, m !! k = Some v ∧ fn v k m = true) ∧
  (Every fn m es = true ↔ ∀ k v, m !! k = Some v → fn v k m = true) ∧
  (m = ∅ → Some_ fn m es = false ∧ Every fn m es = true).
Proof.
  intros Hes. destruct (Some_Every_loops fn m es) as [HS HE]. split_and!.
  - rewrite HS. split.
    + intros ([k v] & He & Hfe). exists k, v.
      split; [by apply (range_order_elem m es)|done].
    + intros (k & v & Hk & Hfe). exists (k, v).
      split; [by apply (range_order_elem m es)|done].
  - rewrite HE. split.
    + intros Hall k v Hk. apply (Hall (k, v)).
      by apply (range_order_elem m es).
    + intros Hall [k v] He. apply Hall. by apply (range_order_elem m es).
  - intros ->. unfold range_order in Hes.
    rewrite map_to_list_empty in Hes. apply Permutation_nil_r in Hes.
    by subst es.
Qed.
End TraversalFacts.
(** ** Filter, Partition and Sweep *)

Section FilterFacts.
Context `{Countable K} {V : Type}.
Variable zero : V.
Implicit Types (m : gmap K V) (es : list (K * V)).

(** A loop that stores the entries that pass a test builds the map of
    those entries. *)
Lemma filter_fold (P : K * V → bool) es (acc : gmap K V) :
  NoDup es.*1 →
  foldl (λ res e, if P e then <[e.1 := e.2]> res else res) acc es
  = filter (λ e, P e = true) (list_to_map es : gmap K V) ∪ acc.
Proof.
  revert acc. induction es as [|[k v] es IH]; intros acc Hnd; simpl.
  - by rewrite map_filter_empty, (left_id_L ∅ (∪)).
  - apply NoDup_cons in Hnd as [Hk Hnd]. rewrite IH by done.
    pose proof (not_elem_of_list_to_map_1 es k Hk) as Hnone.
    destruct (P (k, v)) eqn:HP.
    + rewrite map_filter_insert_True by done.
      apply map_eq. intros i. rewrite !lookup_union.
      destruct (decide (k = i)) as [->|Hne].
      * rewrite !lookup_insert_eq.
        assert (filter (λ e : K * V, P e = true)
                       (list_to_map es : gmap K V) !! i = None) as ->
          by (apply map_lookup_filter_None; by left).
        by destruct (acc !! i).
      * by rewrite !lookup_insert_ne.
    + rewrite map_filter_insert_False by (by rewrite HP).
      by rewrite (delete_id _ _ Hnone).
Qed.

Lemma filter_fold_range (P : K * V → bool) m es :
  range_order m es →
  foldl (λ res e, if P e then <[e.1 := e.2]> res else res) ∅ es
  = filter (λ e, P e = true) m.
Proof.
  intros Hes. rewrite filter_fold by (by eapply range_order_NoDup).
  by rewrite (right_id_L ∅ (∪)), (range_order_to_map m es Hes).
Qed.

(** [Filter] returns exactly the entries that satisfy the callback,
    whatever the range order; with a callback that is always true that
    is the whole collection and with one that is always false none of
    it. *)
Theorem Filter_entries m es (fn : V → K → gmap K V → bool) :
  range_order m es →
  (∀ k v, Filter m es fn !! k = Some v
          ↔ m !! k = Some v ∧ fn v k m = true) ∧
  ((∀ k v, m !! k = Some v → fn v k m = true) → Filter m es fn = m) ∧
  ((∀ k v, m !! k = Some v → fn v k m = false) → Filter m es fn = ∅).
Proof.
  intros Hes. unfold Filter.
  rewrite (filter_fold_range (λ e, fn e.2 e.1 m) m es Hes). split_and!.
  - intros k v. by rewrite map_lookup_filter_Some.
  - intros Hall. apply map_eq. intros k.
    destruct (m !! k) as [v|] eqn:Hk.
    + apply map_lookup_filter_Some. split; [done|]. by apply Hall.
    + apply map_lookup_filter_None. by left.
  - intros Hnone. apply map_eq. intros k. rewrite lookup_empty.
    apply map_lookup_filter_None. right. intros v Hk. simpl.
    rewrite (Hnone k v Hk). done.
Qed.

Lemma Partition_fold (fn : V → K → gmap K V → bool) m es
    (pass fail : gmap K V) :
  foldl (Partition_step fn m) (pass, fail) es
  = (foldl (λ res e, if fn e.2 e.1 m then <[e.1 := e.2]> res else res)
           pass es,
     foldl (λ res e, if negb (fn e.2 e.1 m) then <[e.1 := e.2]> res else res)
           fail es).
Proof.
  revert pass fail. induction es as [|e es IH]; intros pass fail; simpl.
  - done.
  - destruct (fn e.2 e.1 m); simpl; by rewrite IH.
Qed.

(** [Partition] puts every entry of the collection into exactly one of
    the two collections it returns: into the first when the callback is
    true of it, into the second when it is false. *)
Theorem Partition_entries m es (fn : V → K → gmap K V → bool) (k : K) :
  range_order m es →
  let '(pass, fail) := Partition m es fn in
  (∀ v, pass !! k = Some v ↔ m !! k = Some v ∧ fn v k m = true) ∧
  (∀ v, fail !! k = Some v ↔ m !! k = Some v ∧ fn v k m = false) ∧
  (pass !! k = None ∨ fail !! k = None) ∧
  pass ∪ fail = m.
Proof.
  intros Hes. unfold Partition. rewrite Partition_fold.
  rewrite (filter_fold_range (λ e, fn e.2 e.1 m) m es Hes).
  rewrite (filter_fold_range (λ e, negb (fn e.2 e.1 m)) m es Hes).
  assert (∀ i v, filter (λ e : K * V, fn e.2 e.1 m = true) m !! i = Some v
                 ↔ m !! i = Some v ∧ fn v i m = true) as Hpass.
  { intros i v. by rewrite map_lookup_filter_Some. }
  assert (∀ i v, filter (λ e : K * V, negb (fn e.2 e.1 m) = true) m !! i
                 = Some v ↔ m !! i = Some v ∧ fn v i m = false) as Hfail.
  { intros i v. rewrite map_lookup_filter_Some. simpl.
    by rewrite negb_true_iff. }
  split_and!.
  - apply Hpass.
  - apply Hfail.
  - destruct (filter (λ e : K * V, fn e.2 e.1 m = true) m !! k)
      as [v|] eqn:Hp; [|by left]. right.
    apply Hpass in Hp as [Hk Hfn].
    apply eq_None_not_Some. intros [w Hw]. apply Hfail in Hw as [Hk' Hfn'].
    congruence.
  - apply map_eq. intros i. rewrite lookup_union.
    destruct (m !! i) as [v|] eqn:Hi.
    + destruct (fn v i m) eqn:Hfn.
      * assert (filter (λ e : K * V, fn e.2 e.1 m = true) m !! i = Some v)
          as -> by (by apply Hpass).
        by destruct (filter _ m !! i).
      * assert (filter (λ e : K * V, fn e.2 e.1 m = true) m !! i = None)
          as ->.
        { apply eq_None_not_Some. intros [w Hw].
          apply Hpass in Hw as [Hk' Hfn']. congruence. }
        assert (filter (λ e : K * V, negb (fn e.2 e.1 m) = true) m !! i
                = Some v) as -> by (by apply Hfail).
        done.
    + assert (filter (λ e : K * V, fn e.2 e.1 m = true) m !! i = None) as ->
        by (apply map_lookup_filter_None; by left).
      assert (filter (λ e : K * V, negb (fn e.2 e.1 m) = true) m !! i = None)
        as -> by (apply map_lookup_filter_None; by left).
      done.
Qed.

Lemma Sweep_fold (p : V → K → bool) es (items : gmap K V) (count : Z) :
  NoDup es.*1 →
  (∀ k v, (k, v) ∈ es → items !! k = Some v) →
  (0 ≤ count)%Z → (count + Z.of_nat (length es) ≤ GoInt.max_int)%Z →
  let out := foldl (Sweep_step (λ v k _, p v k)) (items, count) es in
  (∀ k v, out.1 !! k = Some v
          ↔ items !! k = Some v ∧ ¬ ((k, v) ∈ es ∧ p v k = true)) ∧
  out.2 = (count + (Size items - Size out.1))%Z ∧
  (Size out.1 ≤ Size items)%Z.
Proof.
  revert items count.
  induction es as [|[k0 v0] es IH]; intros items count Hnd Hin Hc Hmax; simpl.
  - split_and!; [|lia|lia]. intros k v. split; [|by intros [? _]].
    intros Hk. split; [done|]. intros [He _]. by apply elem_of_nil in He.
  - apply NoDup_cons in Hnd as [Hk0 Hnd]. simpl in Hmax.
    assert (items !! k0 = Some v0) as Hitem by (apply Hin; by left).
    destruct (p v0 k0) eqn:Hp.
    + assert (GoInt.add count 1 = (count + 1)%Z) as ->.
      { unfold GoInt.add. apply wrap_in_range.
        unfold GoInt.in_range, GoInt.min_int, GoInt.max_int in *. lia. }
      destruct (IH (delete k0 items) (count + 1)%Z) as (Hlook & Hcount & Hle);
        [done| |lia|lia|].
      { intros k v He. rewrite lookup_delete_ne; [apply Hin; by right|].
        intros <-. apply Hk0. apply list_elem_of_fmap. by exists (k0, v). }
      assert (Size (delete k0 items) = (Size items - 1)%Z) as Hsz.
      { unfold Size. rewrite map_size_delete_Some by (by eexists).
        assert (size items ≠ 0); [|lia].
        intros Hz. apply map_size_empty_iff in Hz. subst items.
        by rewrite lookup_empty in Hitem. }
      split_and!.
      * intros k v. rewrite Hlook. destruct (decide (k = k0)) as [->|Hne].
        -- rewrite lookup_delete_eq. split; [by intros [? _]|].
           intros [Hk Hnot]. exfalso. apply Hnot.
           rewrite Hitem in Hk. injection Hk as <-. split; [by left|done].
        -- rewrite lookup_delete_ne by done. split.
           ++ intros [Hk Hnot]. split; [done|]. intros [He Hpv].
              apply Hnot. split; [|done].
              apply elem_of_cons in He as [[=]|He]; [congruence|done].
           ++ intros [Hk Hnot]. split; [done|]. intros [He Hpv].
              apply Hnot. split; [by right|done].
      * rewrite Hcount, Hsz. lia.
      * lia.
    + destruct (IH items count) as (Hlook & Hcount & Hle); [done| |lia|lia|].
      { intros k v He. apply Hin. by right. }
      split_and!; [|done|done].
      intros k v. rewrite Hlook. split.
      * intros [Hk Hnot]. split; [done|]. intros [He Hpv].
        apply elem_of_cons in He as [[= -> ->]|He]; [congruence|].
        by apply Hnot.
      * intros [Hk Hnot]. split; [done|]. intros [He Hpv].
        apply Hnot. split; [by right|done].
Qed.

(** [Sweep] with a test of the value and the key alone: what is left
    are exactly the entries that fail the test, and the count returned
    is the number of entries removed, the size before less the size
    after. *)
Theorem Sweep_removes m es (p : V → K → bool) :
  range_order m es → GoInt.in_range (Size m) →
  let '(kept_items, count) := Sweep m es (λ v k _, p v k) in
  (∀ k v, kept_items !! k = Some v ↔ m !! k = Some v ∧ p v k = false) ∧
  count = (Size m - Size kept_items)%Z ∧ (0 ≤ count ≤ Size m)%Z.
Proof.
  intros Hes Hrange. unfold Sweep.
  destruct (Sweep_fold p es m 0%Z) as (Hlook & Hcount & Hle).
  - by eapply range_order_NoDup.
  - intros k v He. by apply (range_order_elem m es).
  - lia.
  - rewrite (range_order_length m es Hes).
    unfold GoInt.in_range, Size in Hrange. lia.
  - destruct (foldl (Sweep_step (λ v k _, p v k)) (m, 0%Z) es)
      as [kept_items count]. simpl in *. split_and!.
    + intros k v. rewrite Hlook. split.
      * intros [Hk Hnot]. split; [done|].
        destruct (p v k) eqn:Hp; [|done]. exfalso. apply Hnot.
        split; [|done]. by apply (range_order_elem m es).
      * intros [Hk Hp]. split; [done|]. intros [_ Hp']. congruence.
    + lia.
    + lia.
    + unfold Size in *. lia.
Qed.
End FilterFacts.
(** ** Difference, SymmetricDifference, Concat and Equals *)

Section SetAlgebra2Facts.
Context `{Countable K} {V Any : Type}.
Implicit Types (A B : gmap K V) (es : list (K * V)).

Lemma Difference_lookup A (other : gmap K Any) es (k : K) :
  range_order A es →
  Difference es other !! k = if comma_ok other k then None else A !! k.
Proof.
  intros HA. unfold Difference.
  rewrite (filter_fold_range (λ e, negb (comma_ok other e.1)) A es HA).
  destruct (comma_ok other k) eqn:Hok.
  - apply map_lookup_filter_None. right. intros v _. simpl.
    by rewrite Hok.
  - destruct (A !! k) as [a|] eqn:Ha.
    + apply map_lookup_filter_Some. split; [done|]. simpl. by rewrite Hok.
    + apply map_lookup_filter_None. by left.
Qed.

(** [Difference(A, B)] holds exactly the entries of [A] whose key [B]
    lacks, so it shares no key with [B]; together with
    [Intersection(A, B)] it splits [A]: the two share no key, their
    union is [A], and their sizes add up to the size of [A]. *)
Theorem Difference_splits A (other : gmap K Any) es es' :
  range_order A es → range_order A es' →
  (∀ k v, Difference es other !! k = Some v
          ↔ A !! k = Some v ∧ other !! k = None) ∧
  (∀ k, is_Some (other !! k) → Difference es other !! k = None) ∧
  Intersection es' other ##ₘ Difference es other ∧
  Intersection es' other ∪ Difference es other = A ∧
  (Size (Intersection es' other) + Size (Difference es other))%Z = Size A.
Proof.
  intros HA HA'.
  assert (Intersection es' other ##ₘ Difference es other) as Hdisj.
  { apply map_disjoint_spec. intros k x y.
    rewrite (Intersection_lookup A other es' k HA').
    rewrite (Difference_lookup A other es k HA).
    by destruct (comma_ok other k). }
  assert (Intersection es' other ∪ Difference es other = A) as Hunion.
  { apply map_eq. intros k. rewrite lookup_union.
    rewrite (Intersection_lookup A other es' k HA').
    rewrite (Difference_lookup A other es k HA).
    destruct (comma_ok other k); by destruct (A !! k). }
  split_and!; [| |done|done|].
  - intros k v. rewrite (Difference_lookup A other es k HA).
    destruct (comma_ok other k) eqn:Hok.
    + apply comma_ok_true in Hok as [o Ho]. split; [done|].
      intros [_ Hnone]. congruence.
    + apply comma_ok_false in Hok. by split; [intros ?|intros [? _]].
  - intros k Hk. rewrite (Difference_lookup A other es k HA).
    apply comma_ok_true in Hk. by rewrite Hk.
  - unfold Size. pose proof (map_size_disj_union _ _ Hdisj) as Hsize.
    rewrite Hunion in Hsize. lia.
Qed.

Lemma filter_absent_lookup (X Y : gmap K V) (k : K) :
  filter (λ e : K * V, negb (comma_ok Y e.1) = true) X !! k
  = match Y !! k with None => X !! k | Some _ => None end.
Proof.
  destruct (Y !! k) as [y|] eqn:Hy.
  - apply map_lookup_filter_None. right. intros x _. simpl.
    unfold comma_ok. by rewrite Hy.
  - destruct (X !! k) as [x|] eqn:Hx.
    + apply map_lookup_filter_Some. split; [done|]. simpl.
      unfold comma_ok. by rewrite Hy.
    + apply map_lookup_filter_None. by left.
Qed.

Lemma SymmetricDifference_lookup A B es es_other (k : K) :
  range_order A es → range_order B es_other →
  SymmetricDifference A B es es_other !! k
  = match A !! k, B !! k with
    | Some a, None => Some a
    | None, Some b => Some b
    | _, _ => None
    end.
Proof.
  intros HA HB. unfold SymmetricDifference.
  rewrite (filter_fold_range (λ e, negb (comma_ok B e.1)) A es HA).
  rewrite filter_fold by (by eapply range_order_NoDup).
  rewrite (range_order_to_map B es_other HB), lookup_union.
  rewrite !filter_absent_lookup.
  by destruct (A !! k), (B !! k).
Qed.

(** [SymmetricDifference(A, B)] holds exactly the keys present in one
    of [A] and [B] and not in the other, each with the value of the
    side that has it; so no key of it is in both, and exchanging [A] and
    [B] gives the same collection. *)
Theorem SymmetricDifference_one_side A B es es_other es' es_other' :
  range_order A es → range_order B es_other →
  range_order A es' → range_order B es_other' →
  (∀ k v, SymmetricDifference A B es es_other !! k = Some v
          ↔ (A !! k = Some v ∧ B !! k = None)
            ∨ (A !! k = None ∧ B !! k = Some v)) ∧
  (∀ k, is_Some (A !! k) → is_Some (B !! k) →
        SymmetricDifference A B es es_other !! k = None) ∧
  SymmetricDifference B A es_other' es' = SymmetricDifference A B es es_other.
Proof.
  intros HA HB HA' HB'. split_and!.
  - intros k v. rewrite (SymmetricDifference_lookup A B es es_other k HA HB).
    destruct (A !! k), (B !! k); naive_solver.
  - intros k [a Ha] [b Hb].
    rewrite (SymmetricDifference_lookup A B es es_other k HA HB).
    by rewrite Ha, Hb.
  - apply map_eq. intros k.
    rewrite (SymmetricDifference_lookup A B es es_other k HA HB).
    rewrite (SymmetricDifference_lookup B A es_other' es' k HB' HA').
    by destruct (A !! k), (B !! k).
Qed.

Lemma Concat_fold (acc : gmap K V) (others : list (list (K * V)))
    (maps : list (gmap K V)) :
  Forall2 range_order maps others →
  foldl (λ result es_coll,
           foldl (λ result e, <[e.1 := e.2]> result) result es_coll)
        acc others
  = foldl (λ result o, o ∪ result) acc maps.
Proof.
  intros Hall. revert acc.
  induction Hall as [|o es_o maps others Ho _ IH]; intros acc; simpl.
  - done.
  - rewrite Clone_fold by (by eapply range_order_NoDup).
    rewrite (range_order_to_map o es_o Ho). apply IH.
Qed.

(** [Concat] is the collection overwritten by each of the others in
    argument order: a key of the last collection listed has the value
    it has there, and with no other collection the result is a copy. *)
Theorem Concat_last_wins A es (maps : list (gmap K V))
    (others : list (list (K * V))) :
  range_order A es → Forall2 range_order maps others →
  Concat es others = foldl (λ result o, o ∪ result) A maps ∧
  (∀ maps' o k v, maps = maps' ++ [o] → o !! k = Some v →
                  Concat es others !! k = Some v) ∧
  (maps = [] → Concat es others = A).
Proof.
  intros HA Hall. unfold Concat.
  rewrite (Concat_fold _ others maps Hall), (Clone_range A es HA).
  split_and!; [done| |by intros ->].
  intros maps' o k v -> Hk. rewrite foldl_app. simpl.
  by apply lookup_union_Some_l.
Qed.
End SetAlgebra2Facts.

Section EqualsFacts.
Context `{Countable K} {V : Type}.
Variable DeepEqual : V → V → bool.
Implicit Types (A B : gmap K V) (es : list (K * V)).

Lemma Equals_loop_all B es :
  (∀ v w, DeepEqual v w = true ↔ v = w) →
  Equals_loop DeepEqual B es = true ↔ ∀ e, e ∈ es → B !! e.1 = Some e.2.
Proof.
  intros Hdeep. induction es as [|e es IH]; simpl.
  - split; [|done]. intros _ e He. by apply elem_of_nil in He.
  - destruct (B !! e.1) as [ov|] eqn:Hov.
    + destruct (DeepEqual e.2 ov) eqn:Hde; simpl.
      * apply Hdeep in Hde. subst ov. rewrite IH. split.
        -- intros Hall e' [->|He']%elem_of_cons; [done|by apply Hall].
        -- intros Hall e' He'. apply Hall. by right.
      * split; [done|]. intros Hall.
        assert (B !! e.1 = Some e.2) as Heq by (apply Hall; by left).
        rewrite Hov in Heq. injection Heq as ->.
        assert (DeepEqual e.2 e.2 = true) by (by apply Hdeep). congruence.
    + split; [done|]. intros Hall.
      assert (B !! e.1 = Some e.2) as Heq by (apply Hall; by left).
      congruence.
Qed.

(** When [reflect.DeepEqual] on the value type is true exactly of equal
    values, [Equals] is true exactly when the two collections hold the
    same entries; one and the same collection equals itself without
    its entries being looked at. *)
Theorem Equals_same_entries (σ : gmap positive (gmap K V))
    (c other : positive) A B es :
  (∀ v w, DeepEqual v w = true ↔ v = w) →
  σ !! c = Some A → σ !! other = Some B → range_order A es →
  ∃ b, HeapStore.Equals DeepEqual c other es σ = Some b ∧
       (b = true ↔ A = B) ∧
       (c = other → b = true).
Proof.
  intros Hdeep Hc Ho HA. unfold HeapStore.Equals.
  destruct (decide (c = other)) as [->|Hne].
  - exists true. split_and!; try done. split; [|done]. intros _. congruence.
  - rewrite Hc, Ho. simpl. eexists. split; [done|]. split; [|done].
    unfold Equals. destruct (decide (Size A ≠ Size B)) as [Hsz|Hsz].
    + split; [done|]. intros ->. done.
    + rewrite (Equals_loop_all B es Hdeep). split.
      * intros Hall. apply map_subseteq_size_eq.
        -- apply map_subseteq_spec. intros k v Hk. apply (Hall (k, v)).
           by apply (range_order_elem A es).
        -- unfold Size in Hsz. lia.
      * intros <- [k v] He. simpl. by apply (range_order_elem A es).
Qed.
End EqualsFacts.
(** ** Map and Reduce *)

Section MapReduceFacts.
Context `{Countable K} {V R : Type}.
Variable zero : V.
Implicit Types (m : gmap K V) (es : list (K * V)).

Lemma MapCollection_fmap m es (fn : V → K → gmap K V → R) :
  MapCollection m es fn = (λ e, fn e.2 e.1 m) <$> es.
Proof.
  unfold MapCollection.
  enough (∀ acc, foldl (λ res e, res ++ [fn e.2 e.1 m]) acc es
                 = acc ++ ((λ e, fn e.2 e.1 m) <$> es)) as Hgen by apply Hgen.
  induction es as [|e es IH]; intros acc; simpl.
  - by rewrite app_nil_r.
  - rewrite IH. by rewrite <- app_assoc.
Qed.

Lemma MapCollectionValues_fold m es (fn : V → K → gmap K V → R)
    (acc : gmap K R) (k : K) :
  NoDup es.*1 →
  foldl (λ res e, <[e.1 := fn e.2 e.1 m]> res) acc es !! k
  = match (list_to_map es : gmap K V) !! k with
    | Some v => Some (fn v k m)
    | None => acc !! k
    end.
Proof.
  revert acc. induction es as [|[k0 v0] es IH]; intros acc Hnd; simpl.
  - by rewrite lookup_empty.
  - apply NoDup_cons in Hnd as [Hk0 Hnd]. rewrite IH by done.
    pose proof (not_elem_of_list_to_map_1 es k0 Hk0) as Hnone.
    destruct (decide (k0 = k)) as [->|Hne].
    + by rewrite Hnone, !lookup_insert_eq.
    + by rewrite !lookup_insert_ne.
Qed.

(** [MapCollection] returns one result per entry, the results of the
    callback on the entries; [MapCollectionValues] returns a collection
    with the same keys, each mapped to the result of the callback on
    its entry. *)
Theorem Map_entries m es (fn : V → K → gmap K V → R) :
  range_order m es →
  GoInt.len (MapCollection m es fn) = Size m ∧
  (∀ r, r ∈ MapCollection m es fn
        ↔ ∃ k v, m !! k = Some v ∧ r = fn v k m) ∧
  (∀ k, MapCollectionValues m es fn !! k = (λ v, fn v k m) <$> m !! k).
Proof.
  intros Hes. rewrite MapCollection_fmap. split_and!.
  - unfold GoInt.len, Size.
    by rewrite length_fmap, (range_order_length m es Hes).
  - intros r. rewrite list_elem_of_fmap. split.
    + intros ([k v] & -> & He). exists k, v.
      split; [by apply (range_order_elem m es)|done].
    + intros (k & v & Hk & ->). exists (k, v).
      split; [done|by apply (range_order_elem m es)].
  - intros k. unfold MapCollectionValues.
    rewrite MapCollectionValues_fold by (by eapply range_order_NoDup).
    rewrite (range_order_to_map m es Hes), lookup_empty.
    by destruct (m !! k).
Qed.

Lemma ReduceRight_fold m es (tail : list K)
    (fn : R → V → K → gmap K V → R) (a : R) :
  (∀ e, e ∈ es → index zero m e.1 = e.2) →
  foldl (λ acc i,
           a ← acc;
           k ← slice_at (es.*1 ++ tail) i;
           let v := index zero m k in
           Some (fn a v k m))
        (Some a) (descending es.*1)
  = Some (foldl (λ acc e, fn acc e.2 e.1 m) a (reverse es)).
Proof.
  revert tail a. induction es as [|e es IH] using rev_ind;
    intros tail a Hidx.
  - done.
  - rewrite fmap_app. simpl. rewrite descending_snoc, reverse_app. simpl.
    unfold GoInt.len. rewrite slice_at_lookup.
    rewrite <- app_assoc. simpl.
    rewrite (list_lookup_middle es.*1 tail e.1 _ eq_refl). simpl.
    rewrite Hidx by (apply elem_of_app; right; by left).
    apply (IH (e.1 :: tail)). intros e' He'. apply Hidx.
    apply elem_of_app. by left.
Qed.

Lemma foldl_commute {A B} (f : A → B → A) (l l' : list B) (a : A) :
  (∀ a x y, f (f a x) y = f (f a y) x) →
  l ≡ₚ l' → foldl f a l = foldl f a l'.
Proof.
  intros Hcomm Hperm. revert a.
  induction Hperm as [|x l l' _ IH|x y l|l l' l'' _ IH1 _ IH2];
    intros a; simpl.
  - done.
  - apply IH.
  - by rewrite Hcomm.
  - by rewrite IH1, IH2.
Qed.

(** [ReduceRightCollection] does not panic and folds the entries in the
    reverse of the order in which [ReduceCollection] folds them; on an
    empty collection both return the initial value; and when the
    callback gives the same result whichever of two entries it is given
    first, [ReduceCollection] returns the same value over every range
    order, and [ReduceRightCollection] returns that value too. *)
Theorem Reduce_ReduceRight m es es' (fn : R → V → K → gmap K V → R)
    (initialValue : R) :
  range_order m es → range_order m es' →
  ReduceRightCollection zero m es fn initialValue
  = Some (ReduceCollection m (reverse es) fn initialValue) ∧
  (m = ∅ → ReduceCollection m es fn initialValue = initialValue) ∧
  ((∀ a v1 k1 v2 k2, fn (fn a v1 k1 m) v2 k2 m = fn (fn a v2 k2 m) v1 k1 m) →
   ReduceCollection m es fn initialValue
   = ReduceCollection m es' fn initialValue ∧
   ReduceRightCollection zero m es fn initialValue
   = Some (ReduceCollection m es' fn initialValue)).
Proof.
  intros Hes Hes'.
  assert (ReduceRightCollection zero m es fn initialValue
          = Some (ReduceCollection m (reverse es) fn initialValue)) as Hright.
  { unfold ReduceRightCollection, ReduceCollection. rewrite keysUnlocked_fst.
    pose proof (ReduceRight_fold m es [] fn initialValue) as Hfold.
    rewrite app_nil_r in Hfold. apply Hfold.
    intros [k v] He. simpl. apply index_Some.
    by apply (range_order_elem m es). }
  split_and!; [done| |].
  - intros ->. unfold range_order in Hes.
    rewrite map_to_list_empty in Hes. apply Permutation_nil_r in Hes.
    by subst es.
  - intros Hcomm.
    assert (∀ l l' : list (K * V), l ≡ₚ l' →
              ReduceCollection m l fn initialValue
              = ReduceCollection m l' fn initialValue) as Hperm.
    { intros l l' Hl. unfold ReduceCollection.
      apply (foldl_commute (λ acc e, fn acc e.2 e.1 m)); [|done].
      intros a [k1 v1] [k2 v2]. simpl. apply Hcomm. }
    split.
    + apply Hperm. unfold range_order in *. by rewrite Hes, Hes'.
    + rewrite Hright. f_equal. apply Hperm.
      unfold range_order in *. by rewrite reverse_Permutation, Hes, Hes'.
Qed.
End MapReduceFacts.
(** ** FirstKey, LastKey and the forms without an amount *)

Section Positional2Facts.
Context `{Countable K} {V : Type}.
Variable zero : V.
Implicit Types (m : gmap K V) (es : list (K * V)).

(** On a collection that is not empty and for [n ≥ 0], [FirstKey(n)]
    returns the first [n] keys of its snapshot and [LastKey(n)] the
    last [n], all of them when [n] is at or above the size and an empty
    slice when [n] is 0 (where [First(0)] returns nil); and for [n > 0]
    the values that [First(n)] and [Last(n)] return over the same
    snapshot are those the collection maps these keys to. *)
Theorem FirstKey_LastKey m es rest (n : Z) :
  range_order m es → Size m ≠ 0%Z → GoInt.in_range (Size m) → (0 ≤ n)%Z →
  let first_keys := take (Z.to_nat n) es.*1 in
  let last_keys := drop (length es - Z.to_nat n) es.*1 in
  FirstKey (es :: rest) [n] = Returns (AnySlice first_keys) ∧
  LastKey (es :: rest) [n] = Returns (AnySlice last_keys) ∧
  (n = 0%Z → first_keys = [] ∧ last_keys = []) ∧
  ((0 < n)%Z →
   First zero m (es :: rest) [n]
   = Returns (AnySlice (index zero m <$> first_keys)) ∧
   Last zero m (es :: rest) [n]
   = Returns (AnySlice (index zero m <$> last_keys))).
Proof.
  intros Hes Hsz Hrange Hn first_keys last_keys. subst first_keys last_keys.
  assert (Size m = Z.of_nat (length es)) as Hlen.
  { unfold Size. by rewrite (range_order_length m es). }
  assert (GoInt.len es.*1 = Size m) as Hkeys.
  { unfold GoInt.len. by rewrite length_fmap. }
  split_and!.
  - simpl. rewrite keysUnlocked_fst, Hkeys.
    rewrite decide_False by done. rewrite decide_False by lia.
    destruct (decide (n >= Size m)%Z) as [Hge|Hlt].
    + rewrite take_ge; [done|]. rewrite length_fmap. lia.
    + unfold slice_to. rewrite Hkeys. by rewrite decide_True by lia.
  - simpl. rewrite keysUnlocked_fst, Hkeys.
    rewrite decide_False by done. rewrite decide_False by lia.
    destruct (decide (n = 0)%Z) as [->|Hn0].
    { rewrite drop_ge; [done|]. rewrite length_fmap. lia. }
    destruct (decide (n >= Size m)%Z) as [Hge|Hlt].
    + replace (length es - Z.to_nat n) with 0 by lia. done.
    + unfold slice_from, GoInt.sub. rewrite wrap_in_range.
      2:{ unfold GoInt.in_range, GoInt.min_int, GoInt.max_int in *. lia. }
      rewrite Hkeys. rewrite decide_True by lia. simpl.
      by replace (Z.to_nat (Size m - n)) with (length es - Z.to_nat n) by lia.
  - intros ->. split; [done|]. rewrite drop_ge; [done|].
    rewrite length_fmap. simpl. lia.
  - intros Hpos.
    rewrite (First_positive zero m es rest n Hes Hsz Hpos).
    rewrite (Last_positive zero m es rest n Hes Hsz Hpos Hrange).
    rewrite fmap_take, fmap_drop.
    by rewrite (range_order_index zero m es Hes).
Qed.

(** Without an amount, on a collection that is not empty: [First()] is
    the value of [At(0)], [Last()] that of [At(-1)], [FirstKey()] the
    key of [KeyAt(0)] and [LastKey()] that of [KeyAt(-1)], over one
    snapshot; and the value is what the collection maps the key to. *)
Theorem First_Last_are_At m es rest (zeroK : K) :
  range_order m es → Size m ≠ 0%Z → GoInt.in_range (Size m) →
  ∃ k0 v0 k1 v1,
    First zero m (es :: rest) [] = Returns (AnyOne v0) ∧
    At zero m es 0 = Some (v0, true) ∧
    FirstKey (es :: rest) [] = Returns (AnyOne k0) ∧
    KeyAt zeroK es 0 = Some (k0, true) ∧
    Last zero m (es :: rest) [] = Returns (AnyOne v1) ∧
    At zero m es (-1) = Some (v1, true) ∧
    LastKey (es :: rest) [] = Returns (AnyOne k1) ∧
    KeyAt zeroK es (-1) = Some (k1, true) ∧
    m !! k0 = Some v0 ∧ m !! k1 = Some v1.
Proof.
  intros Hes Hsz Hrange.
  assert (Size m = Z.of_nat (length es)) as Hlen.
  { unfold Size. by rewrite (range_order_length m es). }
  assert (GoInt.len es.*1 = Size m) as Hkeys.
  { unfold GoInt.len. by rewrite length_fmap. }
  assert (0 < length es) as Hpos by lia.
  destruct (lookup_lt_is_Some_2 es 0) as [[k0 v0] H0]; [lia|].
  destruct (lookup_lt_is_Some_2 es (length es - 1)) as [[k1 v1] H1]; [lia|].
  assert (es.*1 !! 0 = Some k0) as Hk0 by (by rewrite list_lookup_fmap, H0).
  assert (es.*1 !! (length es - 1) = Some k1) as Hk1
    by (by rewrite list_lookup_fmap, H1).
  assert (m !! k0 = Some v0) as Hm0.
  { apply (range_order_elem m es); [done|]. by eapply list_elem_of_lookup_2. }
  assert (m !! k1 = Some v1) as Hm1.
  { apply (range_order_elem m es); [done|]. by eapply list_elem_of_lookup_2. }
  assert (GoInt.sub (Size m) 1 = Z.of_nat (length es - 1)) as Hsub.
  { unfold GoInt.sub. rewrite wrap_in_range; [lia|].
    unfold GoInt.in_range, GoInt.min_int, GoInt.max_int in *. lia. }
  assert (GoInt.add (-1) (Size m) = Z.of_nat (length es - 1)) as Hadd.
  { unfold GoInt.add. rewrite wrap_in_range; [lia|].
    unfold GoInt.in_range, GoInt.min_int, GoInt.max_int in *. lia. }
  exists k0, v0, k1, v1. unfold At, KeyAt. simpl.
  rewrite !keysUnlocked_fst, Hkeys, Hsub, Hadd.
  rewrite !(decide_False (P := (Size m = 0)%Z)) by done.
  change 0%Z with (Z.of_nat 0). rewrite !slice_at_lookup, Hk0, Hk1. simpl.
  rewrite (index_Some zero m k0 v0 Hm0), (index_Some zero m k1 v1 Hm1).
  rewrite !(decide_False (P := (Z.of_nat 0 < 0 ∨ Z.of_nat 0 >= Size m)%Z))
    by lia.
  rewrite !(decide_False
              (P := (Z.of_nat (length es - 1) < 0
                     ∨ Z.of_nat (length es - 1) >= Size m)%Z)) by lia.
  done.
Qed.
End Positional2Facts.
(** ** Random and RandomKey *)

Section RandomFacts.
Context `{Countable K} {V : Type}.
Variable zero : V.
Implicit Types (m : gmap K V) (es : list (K * V)) (keys : list K).

Lemma is_Perm_facts (n : Z) (perm : list Z) :
  is_Perm n perm →
  length perm = Z.to_nat n ∧ NoDup perm ∧ ∀ p, p ∈ perm → (0 ≤ p < n)%Z.
Proof.
  unfold is_Perm. intros Hperm. split_and!.
  - by rewrite Hperm, length_seqZ.
  - rewrite Hperm. apply NoDup_seqZ.
  - intros p. rewrite Hperm, elem_of_seqZ. lia.
Qed.

(** The loop over the first [n] numbers of [perm] collects the keys at
    those positions, and the loop of [Random] their values. *)
Lemma append_perm_fold m keys (perm : list Z) (n lo : nat)
    (acck : list K) (accv : list V) :
  lo + n ≤ length perm →
  (∀ p, p ∈ perm → (0 ≤ p < GoInt.len keys)%Z) →
  ∃ ks,
    foldl (λ acc i, res ← acc; p ← slice_at perm i; k ← slice_at keys p;
                    Some (res ++ [k]))
          (Some acck) (seqZ (Z.of_nat lo) (Z.of_nat n))
    = Some (acck ++ ks) ∧
    foldl (λ acc i, res ← acc; p ← slice_at perm i; k ← slice_at keys p;
                    Some (res ++ [index zero m k]))
          (Some accv) (seqZ (Z.of_nat lo) (Z.of_nat n))
    = Some (accv ++ (index zero m <$> ks)) ∧
    Forall2 (λ p k, slice_at keys p = Some k) (take n (drop lo perm)) ks.
Proof.
  revert lo acck accv.
  induction n as [|n IH]; intros lo acck accv Hlen Hrange.
  - exists []. simpl. rewrite !app_nil_r. split_and!; [done|done|].
    constructor.
  - rewrite seqZ_cons by lia.
    replace (Z.succ (Z.of_nat lo)) with (Z.of_nat (S lo)) by lia.
    replace (Z.pred (Z.of_nat (S n))) with (Z.of_nat n) by lia.
    destruct (lookup_lt_is_Some_2 perm lo) as [p Hp]; [lia|].
    assert (0 ≤ p < GoInt.len keys)%Z as Hpr.
    { apply Hrange. by eapply list_elem_of_lookup_2. }
    destruct (lookup_lt_is_Some_2 keys (Z.to_nat p)) as [k Hk].
    { unfold GoInt.len in Hpr. lia. }
    assert (slice_at keys p = Some k) as Hslice.
    { unfold slice_at. by rewrite decide_True by lia. }
    destruct (IH (S lo) (acck ++ [k]) (accv ++ [index zero m k]))
      as (ks & Hks & Hvs & Hall); [lia|done|].
    exists (k :: ks). cbn [foldl]. rewrite slice_at_lookup, Hp. simpl.
    rewrite Hslice. simpl. rewrite Hks, Hvs, <- !app_assoc.
    split_and!; [done|done|].
    rewrite (drop_S perm p lo Hp). simpl. by constructor.
Qed.

Lemma picked_keys_NoDup keys (ps : list Z) (ks : list K) :
  NoDup keys → NoDup ps →
  Forall2 (λ p k, slice_at keys p = Some k) ps ks →
  NoDup ks ∧ ∀ k, k ∈ ks → k ∈ keys.
Proof.
  intros Hkeys Hps Hall.
  induction Hall as [|p k ps ks Hpk Hall IH].
  - split; [constructor|]. intros k Hk. by apply elem_of_nil in Hk.
  - apply NoDup_cons in Hps as [Hp Hps].
    destruct (IH Hps) as [IHnd IHin].
    assert (k ∈ keys) as Hkin.
    { unfold slice_at in Hpk. destruct (decide (0 ≤ p)%Z); [|done].
      by eapply list_elem_of_lookup_2. }
    split.
    + apply NoDup_cons. split; [|done]. intros Hk.
      apply list_elem_of_lookup in Hk as [i Hi].
      destruct (Forall2_lookup_r _ _ _ _ _ Hall Hi) as (p' & Hp' & Hp'k).
      unfold slice_at in Hpk, Hp'k.
      destruct (decide (0 ≤ p)%Z); [|done].
      destruct (decide (0 ≤ p')%Z); [|done].
      assert (Z.to_nat p = Z.to_nat p') as Heq
        by (by eapply (NoDup_lookup keys)).
      assert (p = p') as -> by lia.
      apply Hp. by eapply list_elem_of_lookup_2.
    + intros k' [->|Hk']%elem_of_cons; [done|by apply IHin].
Qed.

(** On a collection that is not empty, with [perm] a permutation of the
    positions: for [n ≤ 0] [RandomKey(n)] and [Random(n)] return an
    empty slice; for [n > 0] [RandomKey(n)] returns [n] keys, or as many
    as the collection has when [n] is larger, which are keys of the
    collection and differ from one another, and [Random(n)] returns the
    values the collection maps these keys to.  These calls do not
    panic. *)
Theorem RandomKey_distinct m es (intn : Z) (perm : list Z) (n : Z) :
  range_order m es → Size m ≠ 0%Z → is_Perm (Size m) perm →
  ((n ≤ 0)%Z →
   RandomKey es intn perm [n] = Some (AnySlice []) ∧
   Random zero m es intn perm [n] = Some (AnySlice [])) ∧
  ((0 < n)%Z →
   ∃ ks,
     RandomKey es intn perm [n] = Some (AnySlice ks) ∧
     Random zero m es intn perm [n] = Some (AnySlice (index zero m <$> ks)) ∧
     Z.of_nat (length ks) = Z.min n (Size m) ∧
     NoDup ks ∧
     ∀ k, k ∈ ks → is_Some (m !! k)).
Proof.
  intros Hes Hsz Hperm.
  assert (Size m = Z.of_nat (length es)) as Hlen.
  { unfold Size. by rewrite (range_order_length m es). }
  assert (GoInt.len es.*1 = Size m) as Hkeys.
  { unfold GoInt.len. by rewrite length_fmap. }
  destruct (is_Perm_facts (Size m) perm Hperm) as (Hplen & Hpnd & Hpin).
  unfold RandomKey, Random. rewrite !keysUnlocked_fst, Hkeys.
  rewrite !(decide_False (P := (Size m = 0)%Z)) by done. split.
  - intros Hn. by rewrite !decide_True by done.
  - intros Hn. rewrite !(decide_False (P := (n ≤ 0)%Z)) by lia.
    set (n' := if decide (n > Size m)%Z then Size m else n).
    assert (n' = Z.min n (Size m)) as Hn'.
    { subst n'. destruct (decide (n > Size m)%Z); lia. }
    destruct (append_perm_fold m es.*1 perm (Z.to_nat n') 0 [] [])
      as (ks & Hks & Hvs & Hall).
    { lia. }
    { intros p Hp. rewrite Hkeys. by apply Hpin. }
    simpl in Hks, Hvs. change (Z.of_nat 0) with 0%Z in Hks, Hvs.
    rewrite Z2Nat.id in Hks, Hvs by lia.
    rewrite drop_0 in Hall.
    unfold append_perm_keys, append_perm_items. rewrite Hks, Hvs. simpl.
    assert (NoDup (take (Z.to_nat n') perm)) as Htake
      by (eapply sublist_NoDup; eauto using sublist_take).
    destruct (picked_keys_NoDup es.*1 (take (Z.to_nat n') perm) ks)
      as [Hnd Hin]; [by eapply range_order_NoDup|done|done|].
    exists ks. split_and!; [done|done| |done|].
    + apply Forall2_length in Hall. rewrite <- Hall, length_take. lia.
    + intros k Hk. apply (range_order_keys m es k Hes). by apply Hin.
Qed.
End RandomFacts.

(** ** FlatMap *)

Section FlatMapFacts.
Context `{Countable K} {V : Type}.
Implicit Types (m : gmap K V) (es : list (K * V)).

Lemma FlatMap_fold (fn : V → K → gmap K V → gmap K V) m es
    (sub_order : K → list (K * V)) (acc : gmap K V) :
  (∀ e, e ∈ es → range_order (fn e.2 e.1 m) (sub_order e.1)) →
  foldl (λ result e,
           foldl (λ result sub_e, <[sub_e.1 := sub_e.2]> result)
                 result (sub_order e.1))
        acc es
  = foldl (λ result e, fn e.2 e.1 m ∪ result) acc es.
Proof.
  revert acc. induction es as [|e es IH]; intros acc Hsub; simpl.
  - done.
  - rewrite Clone_fold
      by (eapply range_order_NoDup, Hsub; by left).
    rewrite (range_order_to_map (fn e.2 e.1 m)) by (apply Hsub; by left).
    apply IH. intros e' He'. apply Hsub. by right.
Qed.

Lemma union_fold_lookup (subs : list (gmap K V)) (acc : gmap K V) (k : K) :
  (is_Some (foldl (λ result sub, sub ∪ result) acc subs !! k)
   ↔ is_Some (acc !! k) ∨ ∃ sub, sub ∈ subs ∧ is_Some (sub !! k)) ∧
  (∀ v, foldl (λ result sub, sub ∪ result) acc subs !! k = Some v →
        acc !! k = Some v ∨ ∃ sub, sub ∈ subs ∧ sub !! k = Some v).
Proof.
  revert acc. induction subs as [|sub subs IH]; intros acc; simpl.
  - split.
    + split; [by left|]. intros [?|(sub & Hin & _)]; [done|].
      by apply elem_of_nil in Hin.
    + intros v Hv. by left.
  - destruct (IH (sub ∪ acc)) as [IHs IHv]. split.
    + rewrite IHs, lookup_union_is_Some. split.
      * intros [[Hs|Ha]|(sub' & Hin & Hs)].
        -- right. exists sub. split; [by left|done].
        -- by left.
        -- right. exists sub'. split; [by right|done].
      * intros [Ha|(sub' & [->|Hin]%elem_of_cons & Hs)].
        -- left. by right.
        -- left. by left.
        -- right. by exists sub'.
    + intros v Hv. destruct (IHv v Hv) as [Hu|(sub' & Hin & Hs)].
      * apply lookup_union_Some_raw in Hu as [Hs|[_ Ha]].
        -- right. exists sub. split; [by left|done].
        -- by left.
      * right. exists sub'. split; [by right|done].
Qed.

(** The collection [FlatMap] returns has a key exactly when the
    collection that the callback returns for some entry has it, and the
    value it holds for the key is the value one of those collections
    holds for it. *)
Theorem FlatMap_keys (fn : V → K → gmap K V → gmap K V) m es
    (sub_order : K → list (K * V)) (k' : K) :
  range_order m es →
  (∀ k v, m !! k = Some v → range_order (fn v k m) (sub_order k)) →
  (is_Some (FlatMap es sub_order !! k')
   ↔ ∃ k v, m !! k = Some v ∧ is_Some (fn v k m !! k')) ∧
  (∀ v', FlatMap es sub_order !! k' = Some v' →
         ∃ k v, m !! k = Some v ∧ fn v k m !! k' = Some v').
Proof.
  intros Hes Hsub. unfold FlatMap.
  rewrite (FlatMap_fold fn m es sub_order ∅).
  2:{ intros [k v] He. apply Hsub. by apply (range_order_elem m es). }
  assert (foldl (λ result e, fn e.2 e.1 m ∪ result) ∅ es
          = foldl (λ result sub, sub ∪ result) ∅
                  ((λ e, fn e.2 e.1 m) <$> es)) as ->.
  { by rewrite foldl_fmap. }
  destruct (union_fold_lookup ((λ e, fn e.2 e.1 m) <$> es) ∅ k')
    as [Hs Hv].
  split.
  - rewrite Hs, lookup_empty. split.
    + intros [[? ?]|(sub & Hin & Hk)]; [done|].
      apply list_elem_of_fmap in Hin as ([k v] & -> & He).
      exists k, v. split; [by apply (range_order_elem m es)|done].
    + intros (k & v & Hk & Hsome). right. exists (fn v k m).
      split; [|done]. apply list_elem_of_fmap. exists (k, v).
      split; [done|by apply (range_order_elem m es)].
  - intros v' Hv'. destruct (Hv v' Hv') as [He|(sub & Hin & Hk)].
    + by rewrite lookup_empty in He.
    + apply list_elem_of_fmap in Hin as ([k v] & -> & He).
      exists k, v. split; [by apply (range_order_elem m es)|done].
Qed.
End FlatMapFacts.
(** ** Copies, and Reverse and Sort in place *)

Section CopyFacts.
Context `{Countable K} {V : Type}.
Variable zero : V.
Variable SliceStable : (K → K → bool) → list K → list K.
Implicit Types (σ : gmap positive (gmap K V)) (c : positive).
Implicit Types (m : gmap K V) (es : list (K * V)).

(** A clone holds the entries of the original at a new address, and
    the two are independent: [Set], [Delete] and [Clear] on the clone
    leave the original as it was, and on the original leave the clone
    as it was. *)
Theorem Clone_independent σ c m es (key : K) (value : V) :
  σ !! c = Some m → range_order m es →
  ∃ clone σ1,
    Heap.Clone c es σ = Some (clone, σ1) ∧
    clone ≠ c ∧ σ !! clone = None ∧
    σ1 !! clone = Some m ∧ σ1 !! c = Some m ∧
    (∃ σ2, HeapStore.Set_ clone key value σ1 = Some (clone, σ2) ∧
           σ2 !! c = Some m ∧ σ2 !! clone = Some (<[key := value]> m)) ∧
    (∃ b σ2, HeapStore.Delete clone key σ1 = Some (b, σ2) ∧
             σ2 !! c = Some m) ∧
    (∃ σ2, HeapStore.Clear clone σ1 = Some (clone, σ2) ∧
           σ2 !! c = Some m ∧ σ2 !! clone = Some ∅) ∧
    (∃ σ2, HeapStore.Set_ c key value σ1 = Some (c, σ2) ∧
           σ2 !! clone = Some m) ∧
    (∃ b σ2, HeapStore.Delete c key σ1 = Some (b, σ2) ∧
             σ2 !! clone = Some m) ∧
    (∃ σ2, HeapStore.Clear c σ1 = Some (c, σ2) ∧ σ2 !! clone = Some m).
Proof.
  intros Hc Hes.
  destruct (Heap_Clone_fresh σ c m es Hc) as (clone & Hclone & Hnew & Hne).
  rewrite (Clone_range m es Hes) in Hclone.
  exists clone, (<[clone := m]> σ).
  assert (<[clone := m]> σ !! clone = Some m) as H1
    by apply lookup_insert_eq.
  assert (<[clone := m]> σ !! c = Some m) as H2
    by (by rewrite lookup_insert_ne).
  unfold HeapStore.Set_, HeapStore.Delete, HeapStore.Clear.
  rewrite H1, H2. simpl.
  split_and!; try done.
  - eexists. split; [done|].
    by rewrite lookup_insert_eq, lookup_insert_ne, lookup_insert_ne.
  - eexists _, _. split; [done|].
    by rewrite lookup_insert_ne, lookup_insert_ne.
  - eexists. split; [done|].
    by rewrite lookup_insert_eq, lookup_insert_ne, lookup_insert_ne.
  - eexists. split; [done|].
    by rewrite lookup_insert_ne, lookup_insert_eq by done.
  - eexists _, _. split; [done|].
    by rewrite lookup_insert_ne, lookup_insert_eq by done.
  - eexists. split; [done|].
    by rewrite lookup_insert_ne, lookup_insert_eq by done.
Qed.

(** [Reverse] and [Sort] return the collection they are called on and
    leave it with the entries it had: the store is as before.  [Sort]
    is taken with a [sort.SliceStable] that rearranges its argument. *)
Theorem Reverse_Sort_keep_entries σ c m es (compare : Comparator) :
  (∀ less keys, SliceStable less keys ≡ₚ keys) →
  σ !! c = Some m → range_order m es → GoInt.in_range (Size m) →
  Heap.Reverse zero c es σ = Some (c, σ) ∧
  Heap.Sort zero SliceStable c compare es σ = Some (c, σ).
Proof.
  intros Hperm Hc Hes Hrange. unfold Heap.Reverse, Heap.Sort.
  rewrite Hc. simpl.
  rewrite (Reverse_entries zero m es Hes Hrange). simpl.
  rewrite (Sort_entries zero SliceStable compare m es Hperm Hes).
  by rewrite (insert_id σ c m Hc).
Qed.

(** The collection that [ToReversed] and [ToSorted] return holds
    exactly the entries of the original: the store afterwards is the
    store before with one more collection, which has the original's
    map. *)
Theorem ToReversed_ToSorted_entries σ c m es es' (compare : Comparator) :
  (∀ less keys, SliceStable less keys ≡ₚ keys) →
  σ !! c = Some m → range_order m es → range_order m es' →
  GoInt.in_range (Size m) →
  ∃ c', σ !! c' = None ∧
        Heap.ToReversed zero c es es' σ = Some (c', <[c' := m]> σ) ∧
        Heap.ToSorted zero SliceStable c compare es es' σ
        = Some (c', <[c' := m]> σ).
Proof.
  intros Hperm Hc Hes Hes' Hrange.
  destruct (ToReversed_entries zero σ c m es es' Hc Hes Hes' Hrange)
    as (c1 & Hrev & Hnew).
  destruct (ToSorted_entries zero SliceStable σ c m compare es es'
              Hperm Hc Hes Hes') as (c2 & Hsort & _).
  assert (c2 = c1) as ->.
  { unfold Heap.ToReversed, Heap.ToSorted in *.
    destruct (Heap.Clone c es σ) as [[clone σ1]|]; [|done].
    simpl in *. unfold Heap.Reverse, Heap.Sort in *.
    destruct (σ1 !! clone); [|done]. simpl in *.
    destruct (Reverse zero _ es'); [|done]. simpl in *.
    congruence. }
  by exists c1.
Qed.
End CopyFacts.

Lemma insert_sorted_Permutation {A} (less : A → A → bool) (x : A)
    (l : list A) :
  insert_sorted less x l ≡ₚ x :: l.
Proof.
  induction l as [|y l IH]; simpl; [done|].
  destruct (less x y); [done|]. rewrite IH. apply Permutation_swap.
Qed.

Lemma insertion_sort_Permutation {A} (less : A → A → bool) (l : list A) :
  insertion_sort less l ≡ₚ l.
Proof.
  unfold insertion_sort.
  enough (∀ acc, foldl (λ sorted x, insert_sorted less x sorted) acc l
                 ≡ₚ acc ++ l) as Hgen by apply Hgen.
  induction l as [|x l IH]; intros acc; simpl.
  - by rewrite app_nil_r.
  - rewrite IH, insert_sorted_Permutation.
    by rewrite <- Permutation_middle.
Qed.

(** ** Ensure, twice *)

Section EnsureTwice.
Context `{Countable K} {V : Type}.
Variable zero : V.

(** A second [Ensure] on the same key, with any generator, returns the
    value the first returned, makes no generator call and leaves the
    collection as the first left it. *)
Theorem Ensure_twice (m : gmap K V) (key : K) (gen gen' : Generator) :
  let out := Ensure zero key gen m in
  let out' := Ensure zero key gen' (ensure_items out) in
  ensure_value out' = ensure_value out ∧
  ensure_items out' = ensure_items out ∧
  ensure_calls out' = [].
Proof.
  intros out out'.
  assert (ensure_items out !! key = Some (ensure_value out)) as Hstored.
  { subst out. unfold Ensure, index2.
    destruct (m !! key) as [v|] eqn:Hm; [done|].
    destruct (gen key m) as [def m1].
    destruct (m1 !! key) as [w|] eqn:Hm1; simpl; [done|].
    by rewrite lookup_insert_eq. }
  subst out'. clearbody out. unfold Ensure, index2. by rewrite Hstored.
Qed.
End EnsureTwice.
(** ** DefaultSort as a comparator *)

Lemma N_of_ascii_inj (a b : Ascii.ascii) :
  Ascii.N_of_ascii a = Ascii.N_of_ascii b → a = b.
Proof.
  intros Heq. rewrite <- (Ascii.ascii_N_embedding a).
  rewrite <- (Ascii.ascii_N_embedding b). by rewrite Heq.
Qed.

Lemma string_lt_asym (x y : string) :
  string_lt x y = true → string_lt y x = false.
Proof.
  revert y. induction x as [|a x IH]; intros [|b y]; simpl; try done.
  destruct (Ascii.N_of_ascii a <? Ascii.N_of_ascii b)%N eqn:Hab.
  - intros _. apply N.ltb_lt in Hab.
    assert ((Ascii.N_of_ascii b <? Ascii.N_of_ascii a)%N = false) as ->
      by (apply N.ltb_ge; lia).
    done.
  - destruct (Ascii.N_of_ascii b <? Ascii.N_of_ascii a)%N; [done|].
    apply IH.
Qed.

Lemma string_lt_connex (x y : string) :
  string_lt x y = false → string_lt y x = false → x = y.
Proof.
  revert y. induction x as [|a x IH]; intros [|b y]; simpl; try done.
  destruct (Ascii.N_of_ascii a <? Ascii.N_of_ascii b)%N eqn:Hab; [done|].
  destruct (Ascii.N_of_ascii b <? Ascii.N_of_ascii a)%N eqn:Hba; [done|].
  intros Hxy Hyx. apply N.ltb_ge in Hab, Hba.
  assert (a = b) as -> by (apply N_of_ascii_inj; lia).
  by rewrite (IH y Hxy Hyx).
Qed.

(** [DefaultSort] is a three-way comparison of the strings that
    [toString] gives: exchanging the two values negates the result, the
    result is 0 exactly when the two strings are equal, and the keys
    have no part in it. *)
Theorem DefaultSort_antisymmetric {K : Type} (v1 v2 : GoValue)
    (k1 k2 k1' k2' : K) :
  DefaultSort v2 v1 k1' k2' = (- DefaultSort v1 v2 k1 k2)%Z ∧
  (DefaultSort v1 v2 k1 k2 = 0%Z ↔ toString v1 = toString v2) ∧
  DefaultSort v1 v2 k1' k2' = DefaultSort v1 v2 k1 k2.
Proof.
  unfold DefaultSort.
  destruct (string_lt (toString v1) (toString v2)) eqn:H12.
  - rewrite (string_lt_asym _ _ H12). split_and!; [done| |done].
    split; [done|]. intros Heq. rewrite Heq, string_lt_irrefl in H12. done.
  - destruct (string_lt (toString v2) (toString v1)) eqn:H21.
    + split_and!; [done| |done].
      split; [done|]. intros Heq. rewrite Heq, string_lt_irrefl in H21. done.
    + split_and!; [done| |done].
      split; [|done]. intros _. by apply string_lt_connex.
Qed.

(** ** CombineEntries and its type assertions *)

Section CombinePanics.
Context `{Countable K} {V Any : Type}.
Variable assertK : Any → option K.
Variable assertV : Any → option V.
Variable combine : V → V → K → V.

Lemma CombineEntries_fold_None (entries : list (Any * Any)) :
  foldl (CombineEntries_step assertK assertV combine) None entries = None.
Proof. induction entries as [|e entries IH]; simpl; [done|apply IH]. Qed.

Lemma CombineEntries_fold_panics (entries : list (Any * Any))
    (st : gmap K V * list (V * V * K)) :
  foldl (CombineEntries_step assertK assertV combine) (Some st) entries = None
  ↔ ∃ e, e ∈ entries ∧ (assertK e.1 = None ∨ assertV e.2 = None).
Proof.
  revert st. induction entries as [|e entries IH]; intros st; simpl.
  - split; [done|]. intros (e & He & _). by apply elem_of_nil in He.
  - destruct st as [coll calls].
    destruct (assertK e.1) as [k|] eqn:HK; simpl.
    + destruct (assertV e.2) as [v|] eqn:HV; simpl.
      * assert (∃ st', match coll !! k with
                       | Some old => Some (<[k:=combine old v k]> coll,
                                           calls ++ [(old, v, k)])
                       | None => Some (<[k:=v]> coll, calls)
                       end = Some st') as [st' ->]
          by (destruct (coll !! k); by eexists).
        rewrite IH. split.
        -- intros (e' & He' & Hbad). exists e'. split; [by right|done].
        -- intros (e' & [->|He']%elem_of_cons & Hbad).
           ++ destruct Hbad; congruence.
           ++ by exists e'.
      * rewrite CombineEntries_fold_None. split; [|done]. intros _.
        exists e. split; [by left|by right].
    + rewrite CombineEntries_fold_None. split; [|done]. intros _.
      exists e. split; [by left|by left].
Qed.

(** [CombineEntries] panics exactly when the key or the value of some
    entry is not of the declared type; with no entries it returns an
    empty collection. *)
Theorem CombineEntries_panics_iff (entries : list (Any * Any)) :
  (CombineEntries assertK assertV entries combine = None
   ↔ ∃ e, e ∈ entries ∧ (assertK e.1 = None ∨ assertV e.2 = None)) ∧
  CombineEntries assertK assertV [] combine = Some (∅, []).
Proof.
  split; [|done]. unfold CombineEntries. apply CombineEntries_fold_panics.
Qed.
End CombinePanics.

(** ** GroupBy as a partition *)

Section GroupByPartition.
Context `{Countable K} {Item : Type}.
Variable keySelector : Item → Z → K.

Lemma GroupBy_lookup (items : list Item) (k : K) :
  (GroupBy items keySelector).1 !! k
  = grouped None
      (filter (λ p, keySelector p.1 p.2 = k)
              (imap (λ i item, (item, Z.of_nat i)) items)).*1.
Proof.
  unfold GroupBy.
  destruct (GroupBy_fold keySelector items 0 ∅ []) as [_ Hres].
  specialize (Hres k).
  destruct (foldl (GroupBy_step keySelector) (0%Z, ∅, []) items)
    as [[i res] calls].
  simpl in *. rewrite Hres, lookup_empty.
  by rewrite group_from_filter, calls_from_imap.
Qed.

(** [GroupBy] puts every item into the group of the key that the
    selector gives for it; a group it returns is not empty and holds
    only items for which the selector gave the group's key; and with no
    items the result is empty. *)
Theorem GroupBy_partition (items : list Item) :
  let res := (GroupBy items keySelector).1 in
  (∀ i item, items !! i = Some item →
             ∃ g, res !! keySelector item (Z.of_nat i) = Some g ∧ item ∈ g) ∧
  (∀ k g, res !! k = Some g →
          g ≠ [] ∧
          ∀ item, item ∈ g →
                  ∃ i, items !! i = Some item ∧
                       keySelector item (Z.of_nat i) = k) ∧
  (items = [] → res = ∅).
Proof.
  intros res. subst res. split_and!.
  - intros i item Hi. rewrite GroupBy_lookup.
    assert (item ∈ (filter (λ p, keySelector p.1 p.2
                                 = keySelector item (Z.of_nat i))
                      (imap (λ i item, (item, Z.of_nat i)) items)).*1)
      as Hin.
    { apply list_elem_of_fmap. exists (item, Z.of_nat i). split; [done|].
      apply list_elem_of_filter. split; [done|].
      apply list_elem_of_lookup. exists i.
      by rewrite list_lookup_imap, Hi. }
    destruct ((filter _ _).*1) as [|x g] eqn:Hg.
    + by apply elem_of_nil in Hin.
    + exists (x :: g). by split.
  - intros k g. rewrite GroupBy_lookup.
    destruct ((filter _ _).*1) as [|x g'] eqn:Hg; [done|].
    simpl. intros [= <-]. split; [done|]. intros item Hin.
    rewrite <- Hg in Hin.
    apply list_elem_of_fmap in Hin as ([item' z] & -> & Hf).
    apply list_elem_of_filter in Hf as [Hsel Hf]. simpl in *.
    apply list_elem_of_lookup in Hf as [i Hi].
    rewrite list_lookup_imap in Hi.
    destruct (items !! i) as [item''|] eqn:Hitem; [|done].
    simpl in Hi. injection Hi as Hitem' Hz. subst item'' z. by exists i.
  - intros ->. done.
Qed.
End GroupByPartition.

(** ** MergeCollection as Union and as Intersection *)

Section MergeSpecial.
Context `{Countable K} {V : Type}.
Variable zero : V.
Implicit Types (A B : gmap K V) (es : list (K * V)).

Lemma MergeCollection_lookup A B
    (whenInSelf whenInOther : V → K → Keep V)
    (whenInBoth : V → V → K → Keep V) es es_other (ks : list K) (k : K) :
  range_order A es → range_order B es_other →
  ks ≡ₚ elements (merge_keys es es_other) →
  (MergeCollection zero zero A B whenInSelf whenInOther whenInBoth ks).1 !! k
  = kept A B whenInSelf whenInOther whenInBoth k None.
Proof.
  intros HA HB Hks. unfold MergeCollection.
  rewrite MergeCollection_fold. simpl.
  rewrite commit_fold_lookup, lookup_empty.
  destruct (decide (k ∈ ks)) as [Hin|Hnot]; [done|].
  unfold kept.
  destruct (selected_call A B k) as [cl|] eqn:Hcl; [|done].
  exfalso. apply Hnot.
  rewrite Hks, elem_of_elements.
  rewrite (merge_keys_dom zero zero whenInSelf whenInOther whenInBoth
             A B es es_other HA HB).
  rewrite elem_of_union, !elem_of_dom.
  apply (selected_call_is_Some zero zero whenInSelf whenInOther whenInBoth).
  by eexists.
Qed.

(** [MergeCollection] with three functions that keep the value of the
    first collection where there is one, and that of the second
    otherwise, returns what [Union] returns; with functions that keep
    only a key present in both, with the value of the first, it returns
    what [Intersection] returns. *)
Theorem MergeCollection_Union_Intersection A B es es_other (ks : list K)
    es1 es2 es3 :
  range_order A es → range_order B es_other →
  ks ≡ₚ elements (merge_keys es es_other) →
  range_order A es1 → range_order B es2 → range_order A es3 →
  (MergeCollection zero zero A B
     (λ v _, mkKeep true v) (λ o _, mkKeep true o)
     (λ v _ _, mkKeep true v) ks).1
  = Union es1 es2 ∧
  (MergeCollection zero zero A B
     (λ v _, mkKeep false v) (λ o _, mkKeep false o)
     (λ v _ _, mkKeep true v) ks).1
  = Intersection es3 B.
Proof.
  intros HA HB Hks H1 H2 H3. split.
  - rewrite (Union_union A B es1 es2 H1 H2). apply map_eq. intros k.
    rewrite (MergeCollection_lookup A B _ _ _ es es_other ks k HA HB Hks).
    rewrite lookup_union. unfold kept, selected_call.
    by destruct (A !! k), (B !! k).
  - apply map_eq. intros k.
    rewrite (MergeCollection_lookup A B _ _ _ es es_other ks k HA HB Hks).
    rewrite (Intersection_lookup A B es3 k H3).
    unfold kept, selected_call, comma_ok.
    by destruct (A !! k), (B !! k).
Qed.
End MergeSpecial.

(** ** Instances of the further properties *)

Lemma Keys_Values_Entries_witness :
  let es := map_to_list sample3 in
  range_order sample3 es ∧
  GoInt.len (Keys es) = Size sample3 ∧
  Values es = index 0%Z sample3 <$> Keys es.
Proof.
  intros es.
  assert (range_order sample3 es) as Hes by (unfold range_order; reflexivity).
  destruct (Keys_Values_Entries 0%Z sample3 es Hes)
    as (Hlen & _ & _ & _ & _ & _ & Hvals).
  split_and!; assumption.
Defined.

Lemma Find_FindKey_witness :
  let es := map_to_list sample3 in
  let fn := λ (v : Z) (_ : string) (_ : gmap string Z), (15 <? v)%Z in
  range_order sample3 es ∧
  ∃ v k found,
    Find 0%Z sample3 es fn = (v, found) ∧
    FindKey "" sample3 es fn = (k, found) ∧
    (found = true → sample3 !! k = Some v ∧ fn v k sample3 = true).
Proof.
  intros es fn.
  assert (range_order sample3 es) as Hes by (unfold range_order; reflexivity).
  split; [assumption|].
  destruct (Find_FindKey 0%Z sample3 es fn "" Hes)
    as (v & k & found & HF & HK & _ & Hyes & _).
  exists v, k, found. split_and!; assumption.
Defined.

Lemma FindLast_Find_reverse_witness :
  let es := map_to_list sample3 in
  let fn := λ (v : Z) (_ : string) (_ : gmap string Z), (15 <? v)%Z in
  range_order sample3 es ∧
  FindLast 0%Z sample3 es fn = Some (Find 0%Z sample3 (reverse es) fn) ∧
  FindLastKey 0%Z "" sample3 es fn
  = Some (FindKey "" sample3 (reverse es) fn).
Proof.
  intros es fn.
  assert (range_order sample3 es) as Hes by (unfold range_order; reflexivity).
  destruct (FindLast_Find_reverse 0%Z sample3 es fn "" Hes) as (HF & HK & _).
  split_and!; assumption.
Defined.

Lemma Some_Every_witness :
  let es := map_to_list sample3 in
  let fn := λ (v : Z) (_ : string) (_ : gmap string Z), (15 <? v)%Z in
  range_order sample3 es ∧
  (Some_ fn sample3 es = true
   ↔ ∃ k v, sample3 !! k = Some v ∧ fn v k sample3 = true) ∧
  (Every fn sample3 es = true
   ↔ ∀ k v, sample3 !! k = Some v → fn v k sample3 = true).
Proof.
  intros es fn.
  assert (range_order sample3 es) as Hes by (unfold range_order; reflexivity).
  destruct (Some_Every sample3 es fn Hes) as (HS & HE & _).
  split_and!; assumption.
Defined.

Lemma Filter_entries_witness :
  let es := map_to_list sample3 in
  let fn := λ (v : Z) (_ : string) (_ : gmap string Z), (15 <? v)%Z in
  range_order sample3 es ∧
  Filter sample3 es fn !! "key2" = Some 20%Z.
Proof.
  intros es fn.
  assert (range_order sample3 es) as Hes by (unfold range_order; reflexivity).
  split; [assumption|].
  destruct (Filter_entries sample3 es fn Hes) as (Hlook & _ & _).
  apply Hlook. split; reflexivity.
Defined.

Lemma Partition_entries_witness :
  let es := map_to_list sample3 in
  let fn := λ (v : Z) (_ : string) (_ : gmap string Z), (15 <? v)%Z in
  range_order sample3 es ∧
  (Partition sample3 es fn).1 ∪ (Partition sample3 es fn).2 = sample3.
Proof.
  intros es fn.
  assert (range_order sample3 es) as Hes by (unfold range_order; reflexivity).
  split; [assumption|].
  pose proof (Partition_entries sample3 es fn "key1" Hes) as Hthm.
  destruct (Partition sample3 es fn) as [pass fail].
  destruct Hthm as (_ & _ & _ & Hunion). exact Hunion.
Defined.

Lemma Sweep_removes_witness :
  let es := map_to_list sample3 in
  let p := λ (v : Z) (_ : string), (15 <? v)%Z in
  range_order sample3 es ∧ GoInt.in_range (Size sample3) ∧
  (Sweep sample3 es (λ v k _, p v k)).2
  = (Size sample3 - Size (Sweep sample3 es (λ v k _, p v k)).1)%Z.
Proof.
  intros es p.
  assert (range_order sample3 es) as Hes by (unfold range_order; reflexivity).
  assert (GoInt.in_range (Size sample3)) as Hrange
    by (apply in_range_small; vm_compute; split; discriminate).
  split; [assumption|]. split; [assumption|].
  pose proof (Sweep_removes sample3 es p Hes Hrange) as Hthm.
  destruct (Sweep sample3 es (λ v k _, p v k)) as [kept_items count].
  destruct Hthm as (_ & Hcount & _). exact Hcount.
Defined.

Lemma Difference_splits_witness :
  let A : gmap string Z := <["y" := 2%Z]> (<["x" := 1%Z]> ∅) in
  let B : gmap string Z := <["z" := 30%Z]> (<["y" := 20%Z]> ∅) in
  range_order A (map_to_list A) ∧
  Difference (map_to_list A) B !! "x" = Some 1%Z ∧
  Intersection (map_to_list A) B ∪ Difference (map_to_list A) B = A.
Proof.
  intros A B.
  assert (range_order A (map_to_list A)) as HA
    by (unfold range_order; reflexivity).
  destruct (Difference_splits A B (map_to_list A) (map_to_list A) HA HA)
    as (Hlook & _ & _ & Hunion & _).
  split_and!; [assumption| |assumption].
  apply Hlook. split; reflexivity.
Defined.

Lemma SymmetricDifference_one_side_witness :
  let A : gmap string Z := <["y" := 2%Z]> (<["x" := 1%Z]> ∅) in
  let B : gmap string Z := <["z" := 30%Z]> (<["y" := 20%Z]> ∅) in
  range_order A (map_to_list A) ∧ range_order B (map_to_list B) ∧
  SymmetricDifference B A (map_to_list B) (map_to_list A)
  = SymmetricDifference A B (map_to_list A) (map_to_list B) ∧
  SymmetricDifference A B (map_to_list A) (map_to_list B) !! "z" = Some 30%Z.
Proof.
  intros A B.
  assert (range_order A (map_to_list A)) as HA
    by (unfold range_order; reflexivity).
  assert (range_order B (map_to_list B)) as HB
    by (unfold range_order; reflexivity).
  destruct (SymmetricDifference_one_side A B (map_to_list A) (map_to_list B)
              (map_to_list A) (map_to_list B) HA HB HA HB)
    as (Hlook & _ & Hcomm).
  split_and!; [assumption|assumption|assumption|].
  apply Hlook. right. split; reflexivity.
Defined.

Lemma Concat_last_wins_witness :
  let A : gmap string Z := <["y" := 2%Z]> (<["x" := 1%Z]> ∅) in
  let B : gmap string Z := <["z" := 30%Z]> (<["y" := 20%Z]> ∅) in
  range_order A (map_to_list A) ∧
  Forall2 range_order [B] [map_to_list B] ∧
  Concat (map_to_list A) [map_to_list B] !! "y" = Some 20%Z.
Proof.
  intros A B.
  assert (range_order A (map_to_list A)) as HA
    by (unfold range_order; reflexivity).
  assert (Forall2 range_order [B] [map_to_list B]) as HB
    by (repeat constructor).
  destruct (Concat_last_wins A (map_to_list A) [B] [map_to_list B] HA HB)
    as (_ & Hlast & _).
  split_and!; [assumption|assumption|].
  apply (Hlast [] B); reflexivity.
Defined.

Lemma Equals_same_entries_witness :
  let σ : gmap positive (gmap string Z) :=
    <[2%positive := sample3]> (<[1%positive := sample3]> ∅) in
  let es := map_to_list sample3 in
  (∀ v w : Z, (v =? w)%Z = true ↔ v = w) ∧
  σ !! 1%positive = Some sample3 ∧ σ !! 2%positive = Some sample3 ∧
  range_order sample3 es ∧
  ∃ b, HeapStore.Equals Z.eqb 1%positive 2%positive es σ = Some b ∧
       (b = true ↔ sample3 = sample3).
Proof.
  intros σ es.
  assert (∀ v w : Z, (v =? w)%Z = true ↔ v = w) as Hdeep by apply Z.eqb_eq.
  assert (σ !! 1%positive = Some sample3) as H1 by reflexivity.
  assert (σ !! 2%positive = Some sample3) as H2 by reflexivity.
  assert (range_order sample3 es) as Hes by (unfold range_order; reflexivity).
  destruct (Equals_same_entries Z.eqb σ 1%positive 2%positive
              sample3 sample3 es Hdeep H1 H2 Hes) as (b & Hb & Hiff & _).
  split_and!; [assumption|assumption|assumption|assumption|].
  exists b. split; assumption.
Defined.

Lemma Map_entries_witness :
  let es := map_to_list sample3 in
  let fn := λ (v : Z) (_ : string) (_ : gmap string Z), (v * 2)%Z in
  range_order sample3 es ∧
  GoInt.len (MapCollection sample3 es fn) = Size sample3 ∧
  ∀ k, MapCollectionValues sample3 es fn !! k
       = (λ v, fn v k sample3) <$> sample3 !! k.
Proof.
  intros es fn.
  assert (range_order sample3 es) as Hes by (unfold range_order; reflexivity).
  destruct (Map_entries sample3 es fn Hes) as (Hlen & _ & Hvals).
  split_and!; assumption.
Defined.

Lemma Reduce_ReduceRight_witness :
  let es := map_to_list sample3 in
  let fn := λ (acc v : Z) (_ : string) (_ : gmap string Z), (acc + v)%Z in
  range_order sample3 es ∧
  ReduceRightCollection 0%Z sample3 es fn 0%Z
  = Some (ReduceCollection sample3 (reverse es) fn 0%Z) ∧
  ReduceRightCollection 0%Z sample3 es fn 0%Z
  = Some (ReduceCollection sample3 es fn 0%Z).
Proof.
  intros es fn.
  assert (range_order sample3 es) as Hes by (unfold range_order; reflexivity).
  destruct (Reduce_ReduceRight 0%Z sample3 es es fn 0%Z Hes Hes)
    as (Hright & _ & Hcomm).
  split_and!; [assumption|assumption|].
  apply Hcomm. intros a v1 k1 v2 k2. unfold fn. lia.
Defined.

Lemma FirstKey_LastKey_witness :
  let es := map_to_list sample3 in
  range_order sample3 es ∧ Size sample3 ≠ 0%Z ∧
  GoInt.in_range (Size sample3) ∧ (0 ≤ 2)%Z ∧
  FirstKey [es] [2%Z] = Returns (AnySlice (take 2 es.*1)) ∧
  LastKey [es] [2%Z] = Returns (AnySlice (drop (length es - 2) es.*1)).
Proof.
  intros es.
  assert (range_order sample3 es) as Hes by (unfold range_order; reflexivity).
  assert (Size sample3 ≠ 0%Z) as Hsz by (vm_compute; discriminate).
  assert (GoInt.in_range (Size sample3)) as Hrange
    by (apply in_range_small; vm_compute; split; discriminate).
  assert (0 ≤ 2)%Z as Hn by lia.
  destruct (FirstKey_LastKey 0%Z sample3 es [] 2%Z Hes Hsz Hrange Hn)
    as (HF & HL & _).
  split_and!; assumption.
Defined.

Lemma First_Last_are_At_witness :
  let es := map_to_list sample3 in
  range_order sample3 es ∧ Size sample3 ≠ 0%Z ∧
  GoInt.in_range (Size sample3) ∧
  ∃ v0 v1,
    First 0%Z sample3 [es] [] = Returns (AnyOne v0) ∧
    At 0%Z sample3 es 0 = Some (v0, true) ∧
    Last 0%Z sample3 [es] [] = Returns (AnyOne v1) ∧
    At 0%Z sample3 es (-1) = Some (v1, true).
Proof.
  intros es.
  assert (range_order sample3 es) as Hes by (unfold range_order; reflexivity).
  assert (Size sample3 ≠ 0%Z) as Hsz by (vm_compute; discriminate).
  assert (GoInt.in_range (Size sample3)) as Hrange
    by (apply in_range_small; vm_compute; split; discriminate).
  destruct (First_Last_are_At 0%Z sample3 es [] "" Hes Hsz Hrange)
    as (k0 & v0 & k1 & v1 & HF & HA0 & _ & _ & HL & HA1 & _).
  split_and!; [assumption|assumption|assumption|].
  exists v0, v1. split_and!; assumption.
Defined.

Lemma RandomKey_distinct_witness :
  let es := map_to_list sample3 in
  let perm := [2; 0; 1]%Z in
  range_order sample3 es ∧ Size sample3 ≠ 0%Z ∧
  is_Perm (Size sample3) perm ∧
  ∃ ks,
    RandomKey es 0 perm [2%Z] = Some (AnySlice ks) ∧
    Random 0%Z sample3 es 0 perm [2%Z]
    = Some (AnySlice (index 0%Z sample3 <$> ks)) ∧
    NoDup ks.
Proof.
  intros es perm.
  assert (range_order sample3 es) as Hes by (unfold range_order; reflexivity).
  assert (Size sample3 ≠ 0%Z) as Hsz by (vm_compute; discriminate).
  assert (is_Perm (Size sample3) perm) as Hperm.
  { unfold is_Perm. change (seqZ 0 (Size sample3)) with [0; 1; 2]%Z.
    etransitivity; [apply perm_swap|]. apply perm_skip, perm_swap. }
  destruct (RandomKey_distinct 0%Z sample3 es 0 perm 2%Z Hes Hsz Hperm)
    as [_ Hpos].
  destruct Hpos as (ks & Hks & Hvs & _ & Hnd & _); [lia|].
  split_and!; [assumption|assumption|assumption|].
  exists ks. split_and!; assumption.
Defined.

Lemma FlatMap_keys_witness :
  let es := map_to_list sample3 in
  let fn := λ (v : Z) (k : string) (_ : gmap string Z),
              ({[k := v]} : gmap string Z) in
  let sub_order := λ k : string,
                     match sample3 !! k with
                     | Some v => [(k, v)]
                     | None => []
                     end in
  range_order sample3 es ∧
  (∀ k v, sample3 !! k = Some v →
          range_order (fn v k sample3) (sub_order k)) ∧
  (is_Some (FlatMap es sub_order !! "key1")
   ↔ ∃ k v, sample3 !! k = Some v ∧ is_Some (fn v k sample3 !! "key1")).
Proof.
  intros es fn sub_order.
  assert (range_order sample3 es) as Hes by (unfold range_order; reflexivity).
  assert (∀ k v, sample3 !! k = Some v →
                 range_order (fn v k sample3) (sub_order k)) as Hsub.
  { intros k v Hk. unfold range_order, fn, sub_order. rewrite Hk.
    by rewrite map_to_list_singleton. }
  destruct (FlatMap_keys fn sample3 es sub_order "key1" Hes Hsub)
    as (Hkeys & _).
  split_and!; assumption.
Defined.

Lemma Clone_independent_witness :
  let σ : gmap positive (gmap string Z) := <[1%positive := sample3]> ∅ in
  let es := map_to_list sample3 in
  σ !! 1%positive = Some sample3 ∧ range_order sample3 es ∧
  ∃ clone σ1,
    Heap.Clone 1%positive es σ = Some (clone, σ1) ∧
    clone ≠ 1%positive ∧
    ∃ σ2, HeapStore.Set_ clone "key1" 99%Z σ1 = Some (clone, σ2) ∧
          σ2 !! 1%positive = Some sample3.
Proof.
  intros σ es.
  assert (σ !! 1%positive = Some sample3) as Hc by reflexivity.
  assert (range_order sample3 es) as Hes by (unfold range_order; reflexivity).
  destruct (Clone_independent σ 1%positive sample3 es "key1" 99%Z Hc Hes)
    as (clone & σ1 & Hclone & Hne & _ & _ & _ & (σ2 & Hset & Hkeep & _) & _).
  split_and!; [assumption|assumption|].
  exists clone, σ1. split_and!; [assumption|assumption|].
  exists σ2. split; assumption.
Defined.

Lemma Reverse_Sort_keep_entries_witness :
  let σ : gmap positive (gmap string Z) := <[1%positive := sample3]> ∅ in
  let es := map_to_list sample3 in
  let compare : Comparator :=
    λ (a b : Z) (_ _ : string),
      if (a <? b)%Z then (-1)%Z else if (b <? a)%Z then 1%Z else 0%Z in
  (∀ (less : string → string → bool) keys,
     insertion_sort less keys ≡ₚ keys) ∧
  σ !! 1%positive = Some sample3 ∧ range_order sample3 es ∧
  GoInt.in_range (Size sample3) ∧
  Heap.Reverse 0%Z 1%positive es σ = Some (1%positive, σ) ∧
  Heap.Sort 0%Z insertion_sort 1%positive compare es σ
  = Some (1%positive, σ).
Proof.
  intros σ es compare.
  assert (∀ (less : string → string → bool) keys,
            insertion_sort less keys ≡ₚ keys) as Hperm
    by (intros less keys; apply insertion_sort_Permutation).
  assert (σ !! 1%positive = Some sample3) as Hc by reflexivity.
  assert (range_order sample3 es) as Hes by (unfold range_order; reflexivity).
  assert (GoInt.in_range (Size sample3)) as Hrange
    by (apply in_range_small; vm_compute; split; discriminate).
  destruct (Reverse_Sort_keep_entries 0%Z insertion_sort σ 1%positive
              sample3 es compare Hperm Hc Hes Hrange) as [Hrev Hsort].
  split_and!; assumption.
Defined.

Lemma ToReversed_ToSorted_entries_witness :
  let σ : gmap positive (gmap string Z) := <[1%positive := sample3]> ∅ in
  let es := map_to_list sample3 in
  let compare : Comparator :=
    λ (a b : Z) (_ _ : string),
      if (a <? b)%Z then (-1)%Z else if (b <? a)%Z then 1%Z else 0%Z in
  (∀ (less : string → string → bool) keys,
     insertion_sort less keys ≡ₚ keys) ∧
  σ !! 1%positive = Some sample3 ∧ range_order sample3 es ∧
  GoInt.in_range (Size sample3) ∧
  ∃ c', σ !! c' = None ∧
        Heap.ToReversed 0%Z 1%positive es es σ
        = Some (c', <[c' := sample3]> σ) ∧
        Heap.ToSorted 0%Z insertion_sort 1%positive compare es es σ
        = Some (c', <[c' := sample3]> σ).
Proof.
  intros σ es compare.
  assert (∀ (less : string → string → bool) keys,
            insertion_sort less keys ≡ₚ keys) as Hperm
    by (intros less keys; apply insertion_sort_Permutation).
  assert (σ !! 1%positive = Some sample3) as Hc by reflexivity.
  assert (range_order sample3 es) as Hes by (unfold range_order; reflexivity).
  assert (GoInt.in_range (Size sample3)) as Hrange
    by (apply in_range_small; vm_compute; split; discriminate).
  split_and!; [assumption|assumption|assumption|assumption|].
  exact (ToReversed_ToSorted_entries 0%Z insertion_sort σ 1%positive
           sample3 es es compare Hperm Hc Hes Hes Hrange).
Defined.

Lemma MergeCollection_Union_Intersection_witness :
  let A : gmap string Z := <["y" := 2%Z]> (<["x" := 1%Z]> ∅) in
  let B : gmap string Z := <["z" := 30%Z]> (<["y" := 20%Z]> ∅) in
  let ks := elements (merge_keys (map_to_list A) (map_to_list B)) in
  range_order A (map_to_list A) ∧ range_order B (map_to_list B) ∧
  ks ≡ₚ elements (merge_keys (map_to_list A) (map_to_list B)) ∧
  (MergeCollection 0%Z 0%Z A B
     (λ v _, mkKeep true v) (λ o _, mkKeep true o)
     (λ v _ _, mkKeep true v) ks).1
  = Union (map_to_list A) (map_to_list B) ∧
  (MergeCollection 0%Z 0%Z A B
     (λ v _, mkKeep false v) (λ o _, mkKeep false o)
     (λ v _ _, mkKeep true v) ks).1
  = Intersection (map_to_list A) B.
Proof.
  intros A B ks.
  assert (range_order A (map_to_list A)) as HA
    by (unfold range_order; reflexivity).
  assert (range_order B (map_to_list B)) as HB
    by (unfold range_order; reflexivity).
  assert (ks ≡ₚ elements (merge_keys (map_to_list A) (map_to_list B)))
    as Hks by reflexivity.
  destruct (MergeCollection_Union_Intersection 0%Z A B
              (map_to_list A) (map_to_list B) ks
              (map_to_list A) (map_to_list B) (map_to_list A)
              HA HB Hks HA HB HA) as [HU HI].
  split_and!; assumption.
Defined.
